(** * Input accessors and the NAR serialiser of libfetchers

    A shallow embedding of [input-accessor.cc] (the [InputAccessor] base
    class with [dumpPath] and [showPath], the sandboxed
    [FSInputAccessorImpl], the in-memory [MemoryInputAccessorImpl]) and of
    the default methods of [InputScheme] in [fetchers.hh].

    Exceptions are values of [Exn], a computation that may throw returns a
    [result]; the sink written by [dumpPath] is threaded explicitly, so a
    walk that throws still shows what it wrote before.  The operating
    system below the sandboxed accessor is a record of primitives, and
    every call to one of them is logged. *)

From Stdlib Require Import ZArith NArith Ascii.
From stdpp Require Import gmap strings list sorting pretty.

(** ** Exceptions *)

(** [nix::Error] carries a format string and its arguments;
    [UnimplementedError] and [SysError] derive from it, so a
    [catch (Error &)] handler catches all three. *)
Inductive Exn : Type :=
  | Error (fmt : string) (args : list string)
  | UnimplementedError (msg : string)
  | SysError (msg : string).

Inductive result (A : Type) : Type :=
  | Ok (a : A)
  | Throw (e : Exn).
Arguments Ok {A} a.
Arguments Throw {A} e.

Definition result_map {A B} (f : A → B) (r : result A) : result B :=
  match r with
  | Ok a => Ok (f a)
  | Throw e => Throw e
  end.

#[global] Instance result_fmap : FMap result := @result_map.

(** ** Canonical paths *)

(** Modelled from the spec: [canon-path.hh] is not among the sources.  A
    canonical path is "absolute, /-separated, no empty or ./.. segments",
    with "concatenation, prefix/containment tests": the list of its
    segments, the root being the empty list. *)
Abbreviation CanonPath := (list string).

Fixpoint abs_segments (p : CanonPath) : string :=
  match p with
  | [] => ""
  | c :: p' => "/" +:+ c +:+ abs_segments p'
  end.

(** Modelled from the spec: [CanonPath::abs], the /-separated text. *)
Definition abs (p : CanonPath) : string :=
  match p with
  | [] => "/"
  | _ => abs_segments p
  end.

(** Modelled from the spec: [CanonPath::operator+] on two paths and on a
    path and one more component. *)
Definition path_plus (p q : CanonPath) : CanonPath := p ++ q.
Definition path_push (p : CanonPath) (c : string) : CanonPath := p ++ [c].

(** Modelled from the spec: [CanonPath::isWithin], the containment test:
    [parent] is a prefix of [p], segment by segment. *)
Fixpoint isWithin (p parent : CanonPath) {struct parent} : bool :=
  match parent with
  | [] => true
  | c :: parent' =>
      match p with
      | [] => false
      | d :: p' => if decide (c = d) then isWithin p' parent' else false
      end
  end.

(** Modelled from the spec: [CanonPath::removePrefix]; its callers check
    [isWithin] first. *)
Definition removePrefix (p prefix : CanonPath) : CanonPath :=
  drop (length prefix) p.

(** Modelled from the spec: [CanonPath::isAllowed], "contained in (or is
    an ancestor permitting descent into) some allowed entry". *)
Definition CanonPath_isAllowed (p : CanonPath) (allowed : gset CanonPath) : bool :=
  existsb (λ a, isWithin p a || isWithin a p) (elements allowed).

(** ** The sink *)

(** Modelled from the spec: the [Sink] operators of [serialise.hh] are not
    among the sources.  The sink is the string written so far.  A number is
    written as eight bytes, least significant first; a string token as its
    length, its bytes, and zero bytes up to the next multiple of 8 ("file
    content blobs are length-prefixed and zero-padded to an 8-byte
    boundary"). *)
Abbreviation Sink := string.

Definition byte_at (n : N) (i : N) : ascii :=
  ascii_of_N (N.land (N.shiftr n (8 * i)) 255).

Definition u64le (n : N) : string :=
  String (byte_at n 0) (String (byte_at n 1) (String (byte_at n 2)
  (String (byte_at n 3) (String (byte_at n 4) (String (byte_at n 5)
  (String (byte_at n 6) (String (byte_at n 7) ""))))))).

Fixpoint zeros (n : nat) : string :=
  match n with
  | O => ""
  | S n' => String zero (zeros n')
  end.

Definition size (s : string) : N := N.of_nat (String.length s).

Definition padding (len : N) : string :=
  if decide (len mod 8 = 0)%N then "" else zeros (N.to_nat (8 - len mod 8)).

Definition writeString (s : string) : string :=
  u64le (size s) +:+ s +:+ padding (size s).

(** ** The monad of the walk: a sink, and an exception or a result *)

Inductive outcome (A : Type) : Type :=
  | Done (a : A)
  | Raised (e : Exn)
  | OutOfFuel.
Arguments Done {A} a.
Arguments Raised {A} e.
Arguments OutOfFuel {A}.

Definition W (A : Type) : Type := Sink → Sink * outcome A.

Definition ret {A} (a : A) : W A := λ sink, (sink, Done a).

Definition bind {A B} (k : A → W B) (m : W A) : W B :=
  λ sink,
    match m sink with
    | (sink', Done a) => k a sink'
    | (sink', Raised e) => (sink', Raised e)
    | (sink', OutOfFuel) => (sink', OutOfFuel)
    end.

#[global] Instance W_ret : MRet W := @ret.
#[global] Instance W_bind : MBind W := @bind.

Definition throw {A} (e : Exn) : W A := λ sink, (sink, Raised e).
Definition out_of_fuel {A} : W A := λ sink, (sink, OutOfFuel).

Definition lift {A} (r : result A) : W A :=
  match r with
  | Ok a => ret a
  | Throw e => throw e
  end.

(** [sink << s], [sink << n], [sink(s)] and [writePadding(n, sink)]. *)
Definition put_string (s : string) : W unit := λ sink, (sink +:+ writeString s, Done tt).
Definition put_num (n : N) : W unit := λ sink, (sink +:+ u64le n, Done tt).
Definition put_raw (s : string) : W unit := λ sink, (sink +:+ s, Done tt).
Definition writePadding (len : N) : W unit := λ sink, (sink +:+ padding len, Done tt).

Fixpoint for_each {A} (l : list A) (body : A → W unit) : W unit :=
  match l with
  | [] => ret tt
  | x :: l' => body x ;; for_each l' body
  end.

(** ** std::map with string keys *)

(** A [std::map<std::string, V>] is the list of its pairs in increasing
    key order; [emplace] inserts at the sorted position and leaves the map
    alone when the key is there already.  Keys compare as [std::string]
    does, byte by byte. *)
Fixpoint emplace {V} (k : string) (v : V) (m : list (string * V)) : list (string * V) :=
  match m with
  | [] => [(k, v)]
  | (k', v') :: m' =>
      match String.compare k k' with
      | Lt => (k, v) :: (k', v') :: m'
      | Eq => (k', v') :: m'
      | Gt => (k', v') :: emplace k v m'
      end
  end.

(** ** The accessor interface *)

Inductive Type_ : Type := tRegular | tSymlink | tDirectory | tMisc.

Record Stat : Type := { type : Type_; isExecutable : bool }.

Abbreviation DirEntries := (list (string * option Type_)).

(** The virtual methods of [InputAccessor], each able to throw. *)
Class InputAccessor (T : Type) : Type := {
  number : T → N;
  readFile : T → CanonPath → result string;
  pathExists : T → CanonPath → result bool;
  lstat : T → CanonPath → result Stat;
  readDirectory : T → CanonPath → result DirEntries;
  readLink : T → CanonPath → result string;
  showPath : T → CanonPath → string
}.

(** [static std::atomic<size_t> nextNumber]; the constructor takes
    [++nextNumber], a 64-bit counter. *)
Definition next_number (nextNumber : N) : N := ((nextNumber + 1) mod 2 ^ 64)%N.

Definition narVersionMagic1 : string := "nix-archive-1".

(** ** dumpPath *)

Section dumpPath.
Context {T : Type} `{InputAccessor T}.
Variable acc : T.
Variable filter : string → bool.

Definition dumpContents (path : CanonPath) : W unit :=
  s ← lift (readFile acc path);
  put_string "contents" ;; put_num (size s) ;;
  put_raw s ;;
  writePadding (size s).

(** The map [unhacked]; the case hack is disabled ([if (false)]), so
    every name is entered under itself. *)
Definition unhacked_of (entries : DirEntries) : list (string * string) :=
  fold_left (λ unhacked i, emplace i.1 i.1 unhacked) entries [].

(** The body of the lambda stored in [dump]; it calls itself through the
    variable [dump].  [checkInterrupt()] throws only once the process has
    been signalled; the walks described here are not interrupted. *)
Definition dump_node (dump : CanonPath → W unit) (path : CanonPath) : W unit :=
  st ← lift (lstat acc path);
  put_string "(" ;;
  match type st with
  | tRegular =>
      put_string "type" ;; put_string "regular" ;;
      (if isExecutable st
       then put_string "executable" ;; put_string ""
       else ret tt) ;;
      dumpContents path
  | tDirectory =>
      put_string "type" ;; put_string "directory" ;;
      entries ← lift (readDirectory acc path);
      for_each (unhacked_of entries) (λ i,
        if filter (abs (path_push path i.1))
        then
          put_string "entry" ;; put_string "(" ;; put_string "name" ;;
          put_string i.1 ;; put_string "node" ;;
          dump (path_push path i.2) ;;
          put_string ")"
        else ret tt)
  | tSymlink =>
      put_string "type" ;; put_string "symlink" ;; put_string "target" ;;
      target ← lift (readLink acc path);
      put_string target
  | tMisc =>
      throw (Error "file '%s' has an unsupported type" [abs path])
  end ;;
  put_string ")".

(** The recursive lambda [dump]; [fuel] bounds the depth of the walk. *)
Fixpoint dump (fuel : nat) (path : CanonPath) : W unit :=
  match fuel with
  | O => out_of_fuel
  | S fuel' => dump_node (dump fuel') path
  end.

Definition dumpPath (fuel : nat) (path : CanonPath) : W unit :=
  put_string narVersionMagic1 ;;
  dump fuel path.
End dumpPath.

(** [InputAccessor::showPath], the method a subclass inherits. *)
Definition InputAccessor_showPath (number : N) (path : CanonPath) : string :=
  "/virtual/" +:+ pretty number +:+ abs path.

(** ** The operating system below the sandboxed accessor *)

(** An entry of [nix::readDirectory]: a name and the [d_type] of
    [readdir]. *)
Record DirEntry : Type := { name : string; d_type : N }.

(** The primitives [FSInputAccessorImpl] calls, as a snapshot of the file
    system: [nix::readFile], [nix::pathExists], [nix::lstat] (its
    [st_mode]), [nix::readDirectory], [nix::readLink] and
    [CanonPath::resolveSymlinks].  Each may throw. *)
Record OS : Type := {
  nix_readFile : string → result string;
  nix_pathExists : string → result bool;
  nix_lstat : string → result N;
  nix_readDirectory : string → result (list DirEntry);
  nix_readLink : string → result string;
  resolveSymlinks : CanonPath → result CanonPath
}.

(** One call to the file system. *)
Inductive Call : Type :=
  | CallResolveSymlinks (p : CanonPath)
  | CallReadFile (p : string)
  | CallPathExists (p : string)
  | CallLstat (p : string)
  | CallReadDirectory (p : string)
  | CallReadLink (p : string).

(** A method of the sandboxed accessor: the calls it made, in order, and
    its result or exception. *)
Definition IO (A : Type) : Type := list Call * result A.

Definition io_ret {A} (a : A) : IO A := ([], Ok a).

Definition io_bind {A B} (k : A → IO B) (m : IO A) : IO B :=
  match m with
  | (log, Ok a) => let '(log', r) := k a in (log ++ log', r)
  | (log, Throw e) => (log, Throw e)
  end.

#[global] Instance IO_ret : MRet IO := @io_ret.
#[global] Instance IO_bind : MBind IO := @io_bind.

Definition io_throw {A} (e : Exn) : IO A := ([], Throw e).

(** [try { m } catch (Error &) { h }] *)
Definition io_catch {A} (m : IO A) (h : IO A) : IO A :=
  match m with
  | (log, Ok a) => (log, Ok a)
  | (log, Throw _) => let '(log', r) := h in (log ++ log', r)
  end.

(** A call to a primitive [c] that answered [r]. *)
Definition io_call {A} (c : Call) (r : result A) : IO A := ([c], r).

Definition calls {A} (m : IO A) : list Call := m.1.
Definition outcome_of {A} (m : IO A) : result A := m.2.

(** The file-type bits of [st_mode] and the [d_type] values, as POSIX
    gives them. *)
Definition S_IFMT : N := 61440.   (* 0170000 *)
Definition S_IFREG : N := 32768.  (* 0100000 *)
Definition S_IFDIR : N := 16384.  (* 0040000 *)
Definition S_IFLNK : N := 40960.  (* 0120000 *)
Definition S_IXUSR : N := 64.     (* 0100 *)
Definition S_ISREG (m : N) : bool := (N.land m S_IFMT =? S_IFREG)%N.
Definition S_ISDIR (m : N) : bool := (N.land m S_IFMT =? S_IFDIR)%N.
Definition S_ISLNK (m : N) : bool := (N.land m S_IFMT =? S_IFLNK)%N.
Definition DT_DIR : N := 4.
Definition DT_REG : N := 8.
Definition DT_LNK : N := 10.

(** ** FSInputAccessorImpl *)

Module FSInputAccessorImpl.

Record t : Type := {
  number : N;
  root : CanonPath;
  allowedPaths : option (gset CanonPath)
}.

(** The [Stat] that [lstat] builds from [st.st_mode]. *)
Definition stat_of_mode (st_mode : N) : Stat :=
  {| type :=
       if S_ISREG st_mode then tRegular
       else if S_ISDIR st_mode then tDirectory
       else if S_ISLNK st_mode then tSymlink
       else tMisc;
     isExecutable :=
       S_ISREG st_mode && negb (N.land st_mode S_IXUSR =? 0)%N |}.

(** The type [readDirectory] records for an entry: set for the three
    known [d_type] values, left empty otherwise. *)
Definition entry_type (entry : DirEntry) : option Type_ :=
  if (d_type entry =? DT_REG)%N then Some tRegular
  else if (d_type entry =? DT_LNK)%N then Some tSymlink
  else if (d_type entry =? DT_DIR)%N then Some tDirectory
  else None.

Section methods.
Variable os : OS.
Variable this : t.

Definition makeAbsPath (path : CanonPath) : IO CanonPath :=
  let p := path_plus (root this) path in
  io_catch
    (io_call (CallResolveSymlinks p) (resolveSymlinks os p))
    (mret p).

Definition isAllowed (absPath : CanonPath) : bool :=
  if negb (isWithin absPath (root this)) then false
  else
    match allowedPaths this with
    | Some allowed =>
        let p := removePrefix absPath (root this) in
        if negb (CanonPath_isAllowed p allowed) then false else true
    | None => true
    end.

Definition checkAllowed (absPath : CanonPath) : IO unit :=
  if negb (isAllowed absPath)
  then io_throw (Error "access to path '%s' is forbidden" [abs absPath])
  else mret tt.

Definition readFile (path : CanonPath) : IO string :=
  absPath ← makeAbsPath path;
  checkAllowed absPath ;;
  io_call (CallReadFile (abs absPath)) (nix_readFile os (abs absPath)).

Definition pathExists (path : CanonPath) : IO bool :=
  absPath ← makeAbsPath path;
  if isAllowed absPath
  then io_call (CallPathExists (abs absPath)) (nix_pathExists os (abs absPath))
  else mret false.

Definition lstat (path : CanonPath) : IO Stat :=
  absPath ← makeAbsPath path;
  checkAllowed absPath ;;
  st_mode ← io_call (CallLstat (abs absPath)) (nix_lstat os (abs absPath));
  mret (stat_of_mode st_mode).

Definition readDirectory (path : CanonPath) : IO DirEntries :=
  absPath ← makeAbsPath path;
  checkAllowed absPath ;;
  entries ← io_call (CallReadDirectory (abs absPath)) (nix_readDirectory os (abs absPath));
  mret (fold_left
          (λ res entry,
             if isAllowed (path_push absPath (name entry))
             then emplace (name entry) (entry_type entry) res
             else res)
          entries []).

Definition readLink (path : CanonPath) : IO string :=
  absPath ← makeAbsPath path;
  checkAllowed absPath ;;
  io_call (CallReadLink (abs absPath)) (nix_readLink os (abs absPath)).

Definition allowPath (path : CanonPath) : t :=
  match allowedPaths this with
  | Some allowed =>
      {| number := number this; root := root this;
         allowedPaths := Some ({[path]} ∪ allowed) |}
  | None => this
  end.

Definition hasAccessControl : bool :=
  match allowedPaths this with Some _ => true | None => false end.

Definition showPath (path : CanonPath) : string :=
  abs (path_plus (root this) path).
End methods.

End FSInputAccessorImpl.

(** [makeFSInputAccessor]: the new accessor and the counter after it. *)
Definition makeFSInputAccessor (nextNumber : N) (root : CanonPath)
    (allowedPaths : option (gset CanonPath)) : FSInputAccessorImpl.t * N :=
  ({| FSInputAccessorImpl.number := next_number nextNumber;
      FSInputAccessorImpl.root := root;
      FSInputAccessorImpl.allowedPaths := allowedPaths |},
   next_number nextNumber).

#[global] Instance FS_accessor (os : OS) : InputAccessor FSInputAccessorImpl.t := {
  number := FSInputAccessorImpl.number;
  readFile this path := outcome_of (FSInputAccessorImpl.readFile os this path);
  pathExists this path := outcome_of (FSInputAccessorImpl.pathExists os this path);
  lstat this path := outcome_of (FSInputAccessorImpl.lstat os this path);
  readDirectory this path := outcome_of (FSInputAccessorImpl.readDirectory os this path);
  readLink this path := outcome_of (FSInputAccessorImpl.readLink os this path);
  showPath := FSInputAccessorImpl.showPath
}.

(** ** MemoryInputAccessorImpl *)

Module MemoryInputAccessorImpl.

Record t : Type := {
  number : N;
  files : gmap CanonPath string
}.

Definition readFile (this : t) (path : CanonPath) : result string :=
  match files this !! path with
  | None => Throw (Error "file '%s' does not exist" [abs path])
  | Some contents => Ok contents
  end.

Definition pathExists (this : t) (path : CanonPath) : result bool :=
  match files this !! path with
  | None => Ok false
  | Some _ => Ok true
  end.

Definition lstat (this : t) (path : CanonPath) : result Stat :=
  Throw (UnimplementedError "MemoryInputAccessor::lstat").

Definition readDirectory (this : t) (path : CanonPath) : result DirEntries :=
  Ok [].

Definition readLink (this : t) (path : CanonPath) : result string :=
  Throw (UnimplementedError "MemoryInputAccessor::readLink").

(** [files.emplace]: an existing entry is kept. *)
Definition addFile (this : t) (path : CanonPath) (contents : string) : t :=
  match files this !! path with
  | Some _ => this
  | None => {| number := number this; files := <[path := contents]> (files this) |}
  end.

End MemoryInputAccessorImpl.

Definition makeMemoryInputAccessor (nextNumber : N) : MemoryInputAccessorImpl.t * N :=
  ({| MemoryInputAccessorImpl.number := next_number nextNumber;
      MemoryInputAccessorImpl.files := ∅ |},
   next_number nextNumber).

#[global] Instance Memory_accessor : InputAccessor MemoryInputAccessorImpl.t := {
  number := MemoryInputAccessorImpl.number;
  readFile := MemoryInputAccessorImpl.readFile;
  pathExists := MemoryInputAccessorImpl.pathExists;
  lstat := MemoryInputAccessorImpl.lstat;
  readDirectory := MemoryInputAccessorImpl.readDirectory;
  readLink := MemoryInputAccessorImpl.readLink;
  showPath this := InputAccessor_showPath (MemoryInputAccessorImpl.number this)
}.

(** ** Inputs and input schemes *)

(** Modelled from the spec: [attrs.hh] is not among the sources; an
    attribute is "a scalar value of one of a small closed set of types
    (string, integer, boolean, list-of-string)". *)
Inductive Attr : Type :=
  | AttrString (s : string)
  | AttrInt (n : N)
  | AttrBool (b : bool)
  | AttrStrings (l : list string).

(** [struct Input]: the scheme is a reference (here the position of the
    scheme in the registry), possibly null. *)
Record Input : Type := {
  scheme : option nat;
  attrs : gmap string Attr
}.

(** [struct InputScheme]: of its virtual methods, the three classification
    queries that have a body in the class.  A subclass either overrides
    one or inherits that body. *)
Record InputScheme : Type := {
  override_isDirect : option (Input → bool);
  override_isLocked : option (Input → bool);
  override_isRelative : option (Input → option string)
}.

Module InputScheme_base.
Definition isDirect (input : Input) : bool := true.
Definition isLocked (input : Input) : bool := false.
Definition isRelative (input : Input) : option string := None.
End InputScheme_base.

(** Virtual dispatch of [scheme->isDirect(input)] and its siblings. *)
Definition isDirect (s : InputScheme) (input : Input) : bool :=
  default InputScheme_base.isDirect (override_isDirect s) input.
Definition isLocked (s : InputScheme) (input : Input) : bool :=
  default InputScheme_base.isLocked (override_isLocked s) input.
Definition isRelative (s : InputScheme) (input : Input) : option string :=
  default InputScheme_base.isRelative (override_isRelative s) input.

(** ** Two small file systems *)

(** [/src] holds the executable file [run.sh] ("echo hi") and the symlink
    [link] to [target], which does not exist; the directory is listed with
    [run.sh] first. *)
Module Example_src.

Definition no_such_file {A} (p : string) : result A :=
  Throw (SysError ("getting status of '" +:+ p +:+ "': No such file or directory")).

Definition os : OS := {|
  nix_readFile p :=
    if decide (p = "/src/run.sh") then Ok "echo hi" else no_such_file p;
  nix_pathExists p :=
    Ok (bool_decide (p ∈ ["/"; "/src"; "/src/run.sh"; "/src/link"]));
  nix_lstat p :=
    if decide (p = "/") then Ok 16877%N               (* 040755 *)
    else if decide (p = "/src") then Ok 16877%N       (* 040755 *)
    else if decide (p = "/src/run.sh") then Ok 33261%N  (* 0100755 *)
    else if decide (p = "/src/link") then Ok 41471%N    (* 0120777 *)
    else no_such_file p;
  nix_readDirectory p :=
    if decide (p = "/src")
    then Ok [ {| name := "run.sh"; d_type := DT_REG |};
              {| name := "link"; d_type := DT_LNK |} ]
    else if decide (p = "/") then Ok [ {| name := "src"; d_type := DT_DIR |} ]
    else no_such_file p;
  nix_readLink p :=
    if decide (p = "/src/link") then Ok "target" else no_such_file p;
  resolveSymlinks p :=
    if decide (p = ["src"; "link"]) then no_such_file "/src/target"
    else if bool_decide (p ∈ [[]; ["src"]; ["src"; "run.sh"]]) then Ok p
    else no_such_file (abs p)
|}.

(** The same directory, listed with [link] first. *)
Definition os_link_first : OS := {|
  nix_readFile := nix_readFile os;
  nix_pathExists := nix_pathExists os;
  nix_lstat := nix_lstat os;
  nix_readDirectory p :=
    if decide (p = "/src")
    then Ok [ {| name := "link"; d_type := DT_LNK |};
              {| name := "run.sh"; d_type := DT_REG |} ]
    else nix_readDirectory os p;
  nix_readLink := nix_readLink os;
  resolveSymlinks := resolveSymlinks os
|}.

(** The accessor rooted at [/src], without an allow-list. *)
Definition accessor : FSInputAccessorImpl.t :=
  (makeFSInputAccessor 0 ["src"] None).1.

(** The accessor rooted at [/], without an allow-list. *)
Definition whole : FSInputAccessorImpl.t :=
  (makeFSInputAccessor 2 [] None).1.

(** The filter that rejects [/src] and nothing else. *)
Definition reject_src (p : string) : bool := bool_decide (p ≠ "/src").

(** The accessor rooted at [/src] that allows only [/run.sh]. *)
Definition restricted : FSInputAccessorImpl.t :=
  (makeFSInputAccessor 1 ["src"] (Some {[ ["run.sh"] ]})).1.

Definition accept_all (p : string) : bool := true.
Definition reject_all (p : string) : bool := false.

End Example_src.

(** [/data] holds the file [a] ("A") and the symlink [b] to [a]. *)
Module Example_data.

Definition no_such_file {A} (p : string) : result A :=
  Throw (SysError ("getting status of '" +:+ p +:+ "': No such file or directory")).

Definition os : OS := {|
  nix_readFile p :=
    if bool_decide (p ∈ ["/data/a"; "/data/b"]) then Ok "A" else no_such_file p;
  nix_pathExists p :=
    Ok (bool_decide (p ∈ ["/"; "/data"; "/data/a"; "/data/b"]));
  nix_lstat p :=
    if decide (p = "/") then Ok 16877%N
    else if decide (p = "/data") then Ok 16877%N
    else if decide (p = "/data/a") then Ok 33188%N     (* 0100644 *)
    else if decide (p = "/data/b") then Ok 41471%N     (* 0120777 *)
    else no_such_file p;
  nix_readDirectory p :=
    if decide (p = "/data")
    then Ok [ {| name := "b"; d_type := DT_LNK |};
              {| name := "a"; d_type := DT_REG |} ]
    else if decide (p = "/") then Ok [ {| name := "data"; d_type := DT_DIR |} ]
    else no_such_file p;
  nix_readLink p :=
    if decide (p = "/data/b") then Ok "a" else no_such_file p;
  resolveSymlinks p :=
    if decide (p = ["data"; "b"]) then Ok ["data"; "a"]
    else if bool_decide (p ∈ [[]; ["data"]; ["data"; "a"]]) then Ok p
    else no_such_file (abs p)
|}.

(** The accessor rooted at [/data] with an empty allow-list. *)
Definition accessor : FSInputAccessorImpl.t :=
  (makeFSInputAccessor 0 ["data"] (Some ∅)).1.

End Example_data.

(** The in-memory accessor holding [/foo.txt] with content "hi". *)
Definition memory_foo : MemoryInputAccessorImpl.t :=
  MemoryInputAccessorImpl.addFile (makeMemoryInputAccessor 0).1 ["foo.txt"] "hi".

(** Two results of [readDirectory] that differ at most in the order (and
    the type tags) of the entries they list. *)
Definition same_listing (r1 r2 : result DirEntries) : Prop :=
  match r1, r2 with
  | Ok l1, Ok l2 => l1.*1 ≡ₚ l2.*1
  | Throw e1, Throw e2 => e1 = e2
  | _, _ => False
  end.

(** The order of [std::string]: [a] sorts strictly before [b]. *)
Definition string_lt (a b : string) : Prop := String.compare a b = Lt.

(** Entries of a map compare by their keys. *)
Definition key_lt {V} (a b : string * V) : Prop := string_lt a.1 b.1.

(** The loop of [FSInputAccessorImpl::readDirectory] over the entries the
    file system returned, [allowed_name] being the check on a name. *)
Definition collect (allowed_name : string → bool) (entries : list DirEntry)
    (start : DirEntries) : DirEntries :=
  fold_left
    (λ res entry,
       if allowed_name (name entry)
       then emplace (name entry) (FSInputAccessorImpl.entry_type entry) res
       else res)
    entries start.

(** A computation that only appends to the sink. *)
Definition appends {A} (m : W A) : Prop :=
  ∀ sink, ∃ written, (m sink).1 = sink +:+ written.

(** A run that ended, with a result or an exception, within its fuel. *)
Definition finished {A} (r : Sink * outcome A) : Prop :=
  match r.2 with
  | OutOfFuel => False
  | _ => True
  end.

(** The exception of [checkAllowed]. *)
Definition Forbidden (absPath : CanonPath) : Exn :=
  Error "access to path '%s' is forbidden" [abs absPath].

(** [s] holds no slash. *)
Fixpoint no_slash (s : string) : bool :=
  match s with
  | EmptyString => true
  | String c s' => if decide (c = "/"%char) then false else no_slash s'
  end.

(** The path a call hands to one of the [nix::] primitives; symlink
    resolution works on a [CanonPath] and is not one of them. *)
Definition nix_call_path (c : Call) : option string :=
  match c with
  | CallResolveSymlinks _ => None
  | CallReadFile p | CallPathExists p | CallLstat p
  | CallReadDirectory p | CallReadLink p => Some p
  end.

(** The path [makeAbsPath] returns. *)
Definition absPath_of (os : OS) (this : FSInputAccessorImpl.t) (path : CanonPath)
    : CanonPath :=
  match resolveSymlinks os (path_plus (FSInputAccessorImpl.root this) path) with
  | Ok resolved => resolved
  | Throw _ => path_plus (FSInputAccessorImpl.root this) path
  end.

(** ** Source paths *)

(** Modelled from the spec: [CanonPath::baseName] and [CanonPath::parent]
    are not among the sources; on the list of segments they are the last
    segment and the path without it, and the root has neither. *)
Definition CanonPath_baseName (p : CanonPath) : option string := last p.
Definition CanonPath_parent (p : CanonPath) : option CanonPath :=
  match p with
  | [] => None
  | _ => Some (removelast p)
  end.

(** [struct SourcePath]: an accessor and a path in it. *)
Record SourcePath (T : Type) : Type := {
  sp_accessor : T;
  sp_path : CanonPath
}.
Arguments sp_accessor {T} _.
Arguments sp_path {T} _.

Definition SourcePath_baseName {T} (this : SourcePath T) : string :=
  default "source" (CanonPath_baseName (sp_path this)).

(** [SourcePath::parent]; [None] stands for the failed [assert(p)]. *)
Definition SourcePath_parent {T} (this : SourcePath T) : option (SourcePath T) :=
  match CanonPath_parent (sp_path this) with
  | None => None
  | Some p => Some {| sp_accessor := sp_accessor this; sp_path := p |}
  end.

(** The accessor counter after [k] more accessors were made. *)
Definition after_accessors (k : nat) (nextNumber : N) : N :=
  Nat.iter k next_number nextNumber.

(** [/jail] holds the symlink [out] to [/etc/passwd], a file outside it. *)
Module Example_jail.

Definition no_such_file {A} (p : string) : result A :=
  Throw (SysError ("getting status of '" +:+ p +:+ "': No such file or directory")).

Definition os : OS := {|
  nix_readFile p :=
    if bool_decide (p ∈ ["/etc/passwd"; "/jail/out"]) then Ok "root:x:0:0"
    else no_such_file p;
  nix_pathExists p :=
    Ok (bool_decide (p ∈ ["/"; "/etc"; "/etc/passwd"; "/jail"; "/jail/out"]));
  nix_lstat p :=
    if bool_decide (p ∈ ["/"; "/etc"; "/jail"]) then Ok 16877%N
    else if decide (p = "/etc/passwd") then Ok 33188%N
    else if decide (p = "/jail/out") then Ok 41471%N
    else no_such_file p;
  nix_readDirectory p :=
    if decide (p = "/jail") then Ok [ {| name := "out"; d_type := DT_LNK |} ]
    else if decide (p = "/etc") then Ok [ {| name := "passwd"; d_type := DT_REG |} ]
    else no_such_file p;
  nix_readLink p :=
    if decide (p = "/jail/out") then Ok "/etc/passwd" else no_such_file p;
  resolveSymlinks p :=
    if decide (p = ["jail"; "out"]) then Ok ["etc"; "passwd"]
    else if bool_decide (p ∈ [[]; ["etc"]; ["etc"; "passwd"]; ["jail"]]) then Ok p
    else no_such_file (abs p)
|}.

(** The accessor rooted at [/jail], without an allow-list. *)
Definition accessor : FSInputAccessorImpl.t :=
  (makeFSInputAccessor 0 ["jail"] None).1.

End Example_jail.

(** A computation that writes the same and ends the same whatever the
    sink holds already. *)
Definition sink_blind {A} (m : W A) : Prop :=
  ∀ sink, m sink = (sink +:+ (m "").1, (m "").2).

(** A sink whose length is a multiple of 8, and a computation that keeps
    it so. *)
Definition aligned8 (sink : Sink) : Prop := String.length sink mod 8 = 0.
Definition keeps_aligned {A} (m : W A) : Prop :=
  ∀ sink, aligned8 sink → aligned8 (m sink).1.

(** A computation that ends within its fuel from every sink. *)
Definition always_finished {A} (m : W A) : Prop := ∀ sink, finished (m sink).

(** The file system of [Example_src] with [link] missing from the listing
    of [/src]. *)
Module Example_src_pruned.

Definition os : OS := {|
  nix_readFile := nix_readFile Example_src.os;
  nix_pathExists := nix_pathExists Example_src.os;
  nix_lstat := nix_lstat Example_src.os;
  nix_readDirectory p :=
    if decide (p = "/src")
    then Ok [ {| name := "run.sh"; d_type := DT_REG |} ]
    else nix_readDirectory Example_src.os p;
  nix_readLink := nix_readLink Example_src.os;
  resolveSymlinks := resolveSymlinks Example_src.os
|}.

(** The filter that rejects [/link] and nothing else. *)
Definition reject_link (p : string) : bool := bool_decide (p ≠ "/link").

End Example_src_pruned.

(** Two results of [readDirectory] at [path] that list the same names
    among those the filter [keep] accepts. *)
Definition same_kept_listing (keep : string → bool) (path : CanonPath)
    (r1 r2 : result DirEntries) : Prop :=
  match r1, r2 with
  | Ok l1, Ok l2 =>
      ∀ n, keep (abs (path_push path n)) = true → (n ∈ l1.*1 ↔ n ∈ l2.*1)
  | Throw e1, Throw e2 => e1 = e2
  | _, _ => False
  end.

(** The filter that rejects [/], the text of an accessor's own root, and
    nothing else. *)
Definition reject_slash (p : string) : bool := bool_decide (p ≠ "/").

(** * Properties *)

(** ** The in-memory accessor *)

(** C7: an in-memory accessor holding only /foo.txt with content "hi"
    returns "hi" from readFile("/foo.txt") and true from
    pathExists("/foo.txt"); lstat("/foo.txt") throws UnimplementedError, as
    readLink does on every path, and readDirectory returns no entries on
    every path. *)
Theorem memory_accessor_foo (nextNumber : N) :
  let acc :=
    MemoryInputAccessorImpl.addFile (makeMemoryInputAccessor nextNumber).1
      ["foo.txt"] "hi" in
  readFile acc ["foo.txt"] = Ok "hi"
  ∧ pathExists acc ["foo.txt"] = Ok true
  ∧ lstat acc ["foo.txt"] = Throw (UnimplementedError "MemoryInputAccessor::lstat")
  ∧ (∀ path, readLink acc path = Throw (UnimplementedError "MemoryInputAccessor::readLink"))
  ∧ (∀ path, readDirectory acc path = Ok []).
Proof.
  cbn -[MemoryInputAccessorImpl.addFile].
  unfold MemoryInputAccessorImpl.addFile, MemoryInputAccessorImpl.readFile,
    MemoryInputAccessorImpl.pathExists.
  cbn. rewrite lookup_empty. cbn. rewrite lookup_insert_eq.
  repeat split.
Qed.

(** ** Input schemes *)

(** C8: a scheme that overrides none of the three classification queries
    answers, for every input, isDirect = true, isLocked = false and
    isRelative = none. *)
Theorem InputScheme_defaults (s : InputScheme) (input : Input) :
  override_isDirect s = None →
  override_isLocked s = None →
  override_isRelative s = None →
  isDirect s input = true ∧ isLocked s input = false ∧ isRelative s input = None.
Proof.
  intros Hd Hl Hr. unfold isDirect, isLocked, isRelative.
  rewrite Hd, Hl, Hr. done.
Qed.

Lemma InputScheme_defaults_witness :
  let s := {| override_isDirect := None; override_isLocked := None;
              override_isRelative := None |} in
  let input := {| scheme := Some 0; attrs := {[ "type" := AttrString "path" ]} |} in
  isDirect s input = true ∧ isLocked s input = false ∧ isRelative s input = None.
Proof.
  intros s input. apply (InputScheme_defaults s input); reflexivity.
Defined.

(** ** Canonical paths *)

Lemma isWithin_prefix (p parent : CanonPath) :
  isWithin p parent = true ↔ parent `prefix_of` p.
Proof.
  revert p. induction parent as [|c parent IH]; intros p; simpl.
  - split; [intros _; apply prefix_nil | done].
  - destruct p as [|d p].
    + split; [done | intros Hp; by apply prefix_nil_not in Hp].
    + destruct (decide (c = d)) as [->|Hne].
      * rewrite IH. split; [apply prefix_cons | apply prefix_cons_inv_2].
      * split; [done | intros Hp; by apply prefix_cons_inv_1 in Hp].
Qed.

Lemma isWithin_plus (p q : CanonPath) : isWithin (path_plus p q) p = true.
Proof. apply isWithin_prefix. by exists q. Qed.

Lemma isWithin_refl (p : CanonPath) : isWithin p p = true.
Proof. by apply isWithin_prefix. Qed.

Lemma removePrefix_plus (p q : CanonPath) : removePrefix (path_plus p q) p = q.
Proof. unfold removePrefix, path_plus. by rewrite drop_app_length. Qed.

Lemma path_push_plus (p q : CanonPath) (c : string) :
  path_push (path_plus p q) c = path_plus p (path_push q c).
Proof. unfold path_push, path_plus. by rewrite (assoc_L (++)). Qed.

Lemma CanonPath_isAllowed_true (p : CanonPath) (allowed : gset CanonPath) :
  CanonPath_isAllowed p allowed = true
  ↔ ∃ a, a ∈ allowed ∧ (isWithin p a = true ∨ isWithin a p = true).
Proof.
  unfold CanonPath_isAllowed. rewrite existsb_exists. split.
  - intros (a & Hin & Ha). exists a. split.
    + by apply elem_of_elements, list_elem_of_In.
    + by apply orb_true_iff.
  - intros (a & Hin & Ha). exists a. split.
    + by apply list_elem_of_In, elem_of_elements.
    + by apply orb_true_iff.
Qed.

(** ** The sandbox check *)

(** C3: isAllowed(absPath) is false when absPath is not within root; for
    absPath within root and a configured allow-list it is true exactly
    when the root-relative path lies within an allowed entry or is an
    ancestor of one; for absPath within root and no allow-list it is true.
    The check reads nothing from the file system, so it does not matter
    what exists at absPath. *)
Theorem isAllowed_characterised (this : FSInputAccessorImpl.t) (absPath : CanonPath) :
  (isWithin absPath (FSInputAccessorImpl.root this) = false →
     FSInputAccessorImpl.isAllowed this absPath = false)
  ∧ (∀ allowed,
       FSInputAccessorImpl.allowedPaths this = Some allowed →
       isWithin absPath (FSInputAccessorImpl.root this) = true →
       (FSInputAccessorImpl.isAllowed this absPath = true
        ↔ ∃ a, a ∈ allowed
             ∧ (isWithin (removePrefix absPath (FSInputAccessorImpl.root this)) a = true
                ∨ isWithin a (removePrefix absPath (FSInputAccessorImpl.root this)) = true)))
  ∧ (FSInputAccessorImpl.allowedPaths this = None →
     isWithin absPath (FSInputAccessorImpl.root this) = true →
     FSInputAccessorImpl.isAllowed this absPath = true).
Proof.
  unfold FSInputAccessorImpl.isAllowed. split; [|split].
  - by intros ->.
  - intros allowed -> ->. simpl. rewrite <- CanonPath_isAllowed_true.
    by destruct (CanonPath_isAllowed _ _).
  - intros -> ->. done.
Qed.

Lemma isAllowed_characterised_witness :
  FSInputAccessorImpl.isAllowed Example_src.restricted ["etc"; "passwd"] = false
  ∧ (FSInputAccessorImpl.isAllowed Example_src.restricted ["src"; "run.sh"] = true
     ↔ ∃ a, a ∈ ({[ ["run.sh"] ]} : gset CanonPath)
          ∧ (isWithin (removePrefix ["src"; "run.sh"] ["src"]) a = true
             ∨ isWithin a (removePrefix ["src"; "run.sh"] ["src"]) = true))
  ∧ FSInputAccessorImpl.isAllowed Example_src.accessor ["src"; "link"] = true.
Proof.
  split; [|split].
  - apply (isAllowed_characterised Example_src.restricted ["etc"; "passwd"]).
    reflexivity.
  - apply (isAllowed_characterised Example_src.restricted ["src"; "run.sh"]);
      reflexivity.
  - apply (isAllowed_characterised Example_src.accessor ["src"; "link"]);
      reflexivity.
Defined.

(** ** Resolving a path below the root *)

(** What [makeAbsPath] does: one attempt at resolving root + path, whose
    failure is caught. *)
Lemma makeAbsPath_run (os : OS) (this : FSInputAccessorImpl.t) (path : CanonPath) :
  let p := path_plus (FSInputAccessorImpl.root this) path in
  FSInputAccessorImpl.makeAbsPath os this path =
    ([CallResolveSymlinks p],
     Ok match resolveSymlinks os p with
        | Ok resolved => resolved
        | Throw _ => p
        end).
Proof.
  intros p. unfold FSInputAccessorImpl.makeAbsPath, io_catch, io_call.
  fold p. destruct (resolveSymlinks os p); reflexivity.
Qed.

(** C5: for every path, makeAbsPath returns the symlink resolution of
    root + path when that resolution succeeds, and root + path itself,
    unresolved, exactly when the resolution throws; it returns nothing
    else and never throws. *)
Theorem makeAbsPath_resolved_or_unresolved
    (os : OS) (this : FSInputAccessorImpl.t) (path : CanonPath) :
  let p := path_plus (FSInputAccessorImpl.root this) path in
  let returned := outcome_of (FSInputAccessorImpl.makeAbsPath os this path) in
  (∀ resolved, resolveSymlinks os p = Ok resolved → returned = Ok resolved)
  ∧ (∀ e, resolveSymlinks os p = Throw e → returned = Ok p)
  ∧ (∃ absPath,
       returned = Ok absPath
       ∧ (resolveSymlinks os p = Ok absPath
          ∨ (absPath = p ∧ ∃ e, resolveSymlinks os p = Throw e))).
Proof.
  intros p returned. unfold returned. rewrite makeAbsPath_run. fold p.
  unfold outcome_of. cbn [snd].
  destruct (resolveSymlinks os p) as [resolved|e].
  - split; [by intros ? [= ->]|]. split; [done|].
    exists resolved. split; [done|]. by left.
  - split; [done|]. split; [done|].
    exists p. split; [done|]. right. split; [done|]. by exists e.
Qed.

Lemma makeAbsPath_resolved_or_unresolved_witness :
  outcome_of (FSInputAccessorImpl.makeAbsPath Example_data.os Example_data.accessor ["b"])
    = Ok ["data"; "a"]
  ∧ outcome_of (FSInputAccessorImpl.makeAbsPath Example_src.os Example_src.accessor ["link"])
    = Ok ["src"; "link"].
Proof.
  split.
  - apply (makeAbsPath_resolved_or_unresolved
             Example_data.os Example_data.accessor ["b"]).
    reflexivity.
  - apply (proj1 (proj2 (makeAbsPath_resolved_or_unresolved
                           Example_src.os Example_src.accessor ["link"]))
             (SysError "getting status of '/src/target': No such file or directory")).
    reflexivity.
Defined.

(** ** Denied paths *)

Lemma checkAllowed_denied (this : FSInputAccessorImpl.t) (absPath : CanonPath) :
  FSInputAccessorImpl.isAllowed this absPath = false →
  FSInputAccessorImpl.checkAllowed this absPath = ([], Throw (Forbidden absPath)).
Proof. intros Hdenied. unfold FSInputAccessorImpl.checkAllowed. by rewrite Hdenied. Qed.

Lemma checkAllowed_allowed (this : FSInputAccessorImpl.t) (absPath : CanonPath) :
  FSInputAccessorImpl.isAllowed this absPath = true →
  FSInputAccessorImpl.checkAllowed this absPath = ([], Ok tt).
Proof. intros Hallowed. unfold FSInputAccessorImpl.checkAllowed. by rewrite Hallowed. Qed.

(** Unfold a method up to its call of [makeAbsPath] and [checkAllowed]. *)
Ltac run_method :=
  unfold FSInputAccessorImpl.readFile, FSInputAccessorImpl.pathExists,
    FSInputAccessorImpl.lstat, FSInputAccessorImpl.readLink,
    FSInputAccessorImpl.readDirectory;
  rewrite ?makeAbsPath_run;
  unfold mbind, IO_bind, io_bind, mret, IO_ret, io_ret, io_call; cbn [fst snd].

(** C4, as the code has it: [lstat] and [readFile] on a denied path throw
    the forbidden error after [makeAbsPath] has tried to resolve the
    symlinks of root + path, a call into the file system.  Here the
    accessor rooted at /src allows only /run.sh and /link is asked for. *)
Lemma denied_lstat_resolves_first :
  FSInputAccessorImpl.isAllowed Example_src.restricted ["src"; "link"] = false
  ∧ FSInputAccessorImpl.lstat Example_src.os Example_src.restricted ["link"]
    = ([CallResolveSymlinks ["src"; "link"]], Throw (Forbidden ["src"; "link"]))
  ∧ FSInputAccessorImpl.readFile Example_src.os Example_src.restricted ["link"]
    = ([CallResolveSymlinks ["src"; "link"]], Throw (Forbidden ["src"; "link"]))
  ∧ calls (FSInputAccessorImpl.lstat Example_src.os Example_src.restricted ["link"]) ≠ []
  ∧ calls (FSInputAccessorImpl.readFile Example_src.os Example_src.restricted ["link"]) ≠ [].
Proof. by vm_compute. Qed.

(** C4, amended: on a path that access control denies, pathExists returns
    false without throwing, and lstat and readFile throw the forbidden
    error; in all three the only call into the file system is the symlink
    resolution of makeAbsPath, so the error comes before nix::lstat or
    nix::readFile is attempted.  On an allowed path pathExists answers
    what nix::pathExists answers. *)
Theorem denied_path_methods
    (os : OS) (this : FSInputAccessorImpl.t) (path : CanonPath) :
  let p := path_plus (FSInputAccessorImpl.root this) path in
  let absPath := match resolveSymlinks os p with
                 | Ok resolved => resolved
                 | Throw _ => p
                 end in
  (FSInputAccessorImpl.isAllowed this absPath = false →
     FSInputAccessorImpl.pathExists os this path = ([CallResolveSymlinks p], Ok false)
     ∧ FSInputAccessorImpl.lstat os this path
       = ([CallResolveSymlinks p], Throw (Forbidden absPath))
     ∧ FSInputAccessorImpl.readFile os this path
       = ([CallResolveSymlinks p], Throw (Forbidden absPath)))
  ∧ (FSInputAccessorImpl.isAllowed this absPath = true →
     FSInputAccessorImpl.pathExists os this path
     = ([CallResolveSymlinks p; CallPathExists (abs absPath)],
        nix_pathExists os (abs absPath))).
Proof.
  intros p absPath. split.
  - intros Hdenied. repeat split; run_method; fold p absPath.
    + by rewrite Hdenied.
    + by rewrite (checkAllowed_denied _ _ Hdenied).
    + by rewrite (checkAllowed_denied _ _ Hdenied).
  - intros Hallowed. run_method. fold p absPath. by rewrite Hallowed.
Qed.

Lemma denied_path_methods_witness :
  (FSInputAccessorImpl.pathExists Example_src.os Example_src.restricted ["link"]
   = ([CallResolveSymlinks ["src"; "link"]], Ok false)
   ∧ FSInputAccessorImpl.lstat Example_src.os Example_src.restricted ["link"]
     = ([CallResolveSymlinks ["src"; "link"]], Throw (Forbidden ["src"; "link"]))
   ∧ FSInputAccessorImpl.readFile Example_src.os Example_src.restricted ["link"]
     = ([CallResolveSymlinks ["src"; "link"]], Throw (Forbidden ["src"; "link"])))
  ∧ FSInputAccessorImpl.pathExists Example_src.os Example_src.restricted ["run.sh"]
    = ([CallResolveSymlinks ["src"; "run.sh"]; CallPathExists "/src/run.sh"], Ok true).
Proof.
  split.
  - apply (denied_path_methods Example_src.os Example_src.restricted ["link"]).
    reflexivity.
  - apply (denied_path_methods Example_src.os Example_src.restricted ["run.sh"]).
    reflexivity.
Defined.

(** ** Widening the allow-list *)

Lemma allowPath_root (this : FSInputAccessorImpl.t) (path : CanonPath) :
  FSInputAccessorImpl.root (FSInputAccessorImpl.allowPath this path)
  = FSInputAccessorImpl.root this.
Proof. unfold FSInputAccessorImpl.allowPath. by destruct (FSInputAccessorImpl.allowedPaths this). Qed.

Lemma makeAbsPath_allowPath (os : OS) (this : FSInputAccessorImpl.t) (path q : CanonPath) :
  FSInputAccessorImpl.makeAbsPath os (FSInputAccessorImpl.allowPath this path) q
  = FSInputAccessorImpl.makeAbsPath os this q.
Proof. unfold FSInputAccessorImpl.makeAbsPath. by rewrite allowPath_root. Qed.

(** Once [path] is on the allow-list, root + path and everything below it
    pass the check. *)
Lemma isAllowed_allowPath_below
    (this : FSInputAccessorImpl.t) (allowed : gset CanonPath) (path rest : CanonPath) :
  FSInputAccessorImpl.allowedPaths this = Some allowed →
  FSInputAccessorImpl.isAllowed (FSInputAccessorImpl.allowPath this path)
    (path_plus (FSInputAccessorImpl.root this) (path_plus path rest)) = true.
Proof.
  intros Hsome. unfold FSInputAccessorImpl.isAllowed.
  rewrite allowPath_root, isWithin_plus, removePrefix_plus.
  unfold FSInputAccessorImpl.allowPath. rewrite Hsome. cbn.
  assert (CanonPath_isAllowed (path_plus path rest) ({[path]} ∪ allowed) = true) as ->;
    [|done].
  apply CanonPath_isAllowed_true. exists path.
  split; [apply elem_of_union_l; by apply elem_of_singleton|].
  left. apply isWithin_plus.
Qed.

Lemma isAllowed_allowPath
    (this : FSInputAccessorImpl.t) (allowed : gset CanonPath) (path : CanonPath) :
  FSInputAccessorImpl.allowedPaths this = Some allowed →
  FSInputAccessorImpl.isAllowed (FSInputAccessorImpl.allowPath this path)
    (path_plus (FSInputAccessorImpl.root this) path) = true.
Proof.
  intros Hsome.
  rewrite <- (isAllowed_allowPath_below this allowed path [] Hsome).
  unfold path_plus. by rewrite (right_id_L [] (++)).
Qed.

Lemma fold_left_ext_in {A B} (f g : A → B → A) (l : list B) (a : A) :
  (∀ x b, b ∈ l → f x b = g x b) → fold_left f l a = fold_left g l a.
Proof.
  revert a. induction l as [|b l IH]; intros a Hfg; simpl; [done|].
  rewrite Hfg by left. apply IH. intros x b' Hin. apply Hfg. by right.
Qed.

(** C6, as the code has it: the check is made on the resolved path.  In
    /data the symlink b points to the file a; with an empty allow-list,
    after allowPath(/b) every read of /b is still refused, because /b
    resolves to /data/a, which is not on the list. *)
Lemma allowPath_symlink_still_forbidden :
  let this := FSInputAccessorImpl.allowPath Example_data.accessor ["b"] in
  nix_pathExists Example_data.os "/data/b" = Ok true
  ∧ FSInputAccessorImpl.allowedPaths this = Some {[ ["b"] ]}
  ∧ outcome_of (FSInputAccessorImpl.lstat Example_data.os this ["b"])
    = Throw (Forbidden ["data"; "a"])
  ∧ outcome_of (FSInputAccessorImpl.readFile Example_data.os this ["b"])
    = Throw (Forbidden ["data"; "a"])
  ∧ outcome_of (FSInputAccessorImpl.readLink Example_data.os this ["b"])
    = Throw (Forbidden ["data"; "a"])
  ∧ outcome_of (FSInputAccessorImpl.readDirectory Example_data.os this ["b"])
    = Throw (Forbidden ["data"; "a"])
  ∧ outcome_of (FSInputAccessorImpl.pathExists Example_data.os this ["b"]) = Ok false.
Proof.
  cbn zeta. split; [reflexivity|]. split.
  - by vm_compute.
  - by vm_compute.
Qed.

(** C6, amended: with an allow-list configured, when makeAbsPath leaves
    root + path as it is (its symlink resolution changes nothing, or
    fails), then after allowPath(path) no read of path is refused:
    readFile, pathExists, lstat and readLink return what the file system
    returns at root + path, and readDirectory lists every entry found
    there.  Without an allow-list allowPath changes nothing. *)
Theorem allowPath_then_read
    (os : OS) (this : FSInputAccessorImpl.t) (path : CanonPath) :
  let absPath := path_plus (FSInputAccessorImpl.root this) path in
  let this' := FSInputAccessorImpl.allowPath this path in
  (∀ allowed,
     FSInputAccessorImpl.allowedPaths this = Some allowed →
     outcome_of (FSInputAccessorImpl.makeAbsPath os this path) = Ok absPath →
     outcome_of (FSInputAccessorImpl.readFile os this' path)
       = nix_readFile os (abs absPath)
     ∧ outcome_of (FSInputAccessorImpl.pathExists os this' path)
       = nix_pathExists os (abs absPath)
     ∧ outcome_of (FSInputAccessorImpl.lstat os this' path)
       = result_map FSInputAccessorImpl.stat_of_mode (nix_lstat os (abs absPath))
     ∧ outcome_of (FSInputAccessorImpl.readLink os this' path)
       = nix_readLink os (abs absPath)
     ∧ outcome_of (FSInputAccessorImpl.readDirectory os this' path)
       = result_map
           (λ entries,
              fold_left
                (λ res entry,
                   emplace (name entry) (FSInputAccessorImpl.entry_type entry) res)
                entries [])
           (nix_readDirectory os (abs absPath)))
  ∧ (FSInputAccessorImpl.allowedPaths this = None → this' = this).
Proof.
  intros absPath this'. split.
  - intros allowed Hsome Hres.
    rewrite makeAbsPath_run in Hres. cbn in Hres.
    injection Hres as Hres.
    pose proof (isAllowed_allowPath this allowed path Hsome) as Hallowed.
    fold absPath this' in Hallowed.
    repeat split; unfold this'; run_method; rewrite allowPath_root, Hres;
      fold absPath this'; rewrite ?(checkAllowed_allowed _ _ Hallowed), ?Hallowed;
      cbn.
    + by destruct (nix_readFile os (abs absPath)).
    + by destruct (nix_pathExists os (abs absPath)).
    + by destruct (nix_lstat os (abs absPath)).
    + by destruct (nix_readLink os (abs absPath)).
    + destruct (nix_readDirectory os (abs absPath)) as [entries|e]; cbn; [|done].
      f_equal. apply fold_left_ext_in. intros res entry _.
      unfold absPath. rewrite path_push_plus.
      change (path_push path (name entry)) with (path_plus path [name entry]).
      unfold this'.
      by rewrite (isAllowed_allowPath_below this allowed path [name entry] Hsome).
  - intros Hnone. unfold this', FSInputAccessorImpl.allowPath. by rewrite Hnone.
Qed.

Lemma allowPath_then_read_witness :
  outcome_of (FSInputAccessorImpl.lstat Example_src.os Example_src.restricted ["link"])
    = Throw (Forbidden ["src"; "link"])
  ∧ (let this' := FSInputAccessorImpl.allowPath Example_src.restricted ["link"] in
     outcome_of (FSInputAccessorImpl.readFile Example_src.os this' ["link"])
       = nix_readFile Example_src.os "/src/link"
     ∧ outcome_of (FSInputAccessorImpl.pathExists Example_src.os this' ["link"])
       = Ok true
     ∧ outcome_of (FSInputAccessorImpl.lstat Example_src.os this' ["link"])
       = Ok {| type := tSymlink; isExecutable := false |}
     ∧ outcome_of (FSInputAccessorImpl.readLink Example_src.os this' ["link"])
       = Ok "target"
     ∧ outcome_of (FSInputAccessorImpl.readDirectory Example_src.os this' ["link"])
       = Throw (SysError "getting status of '/src/link': No such file or directory"))
  ∧ FSInputAccessorImpl.allowPath Example_src.accessor ["link"] = Example_src.accessor.
Proof.
  split; [reflexivity|]. split.
  - apply (proj1 (allowPath_then_read Example_src.os Example_src.restricted ["link"])
             {[ ["run.sh"] ]}); reflexivity.
  - apply (proj2 (allowPath_then_read Example_src.os Example_src.accessor ["link"])).
    reflexivity.
Defined.


(** ** Diagnostic labels *)

Lemma abs_slash (p : CanonPath) : ∃ rest, abs p = String "/" rest.
Proof. destruct p as [|c p]; [by exists ""|]. by eexists. Qed.

Lemma pretty_N_go_no_slash (x : N) (s : string) :
  no_slash s = true → no_slash (pretty_N_go x s) = true.
Proof.
  revert s. induction (N.lt_wf_0 x) as [x _ IH]; intros s Hs.
  destruct (decide (x = 0%N)) as [->|Hx]; [by rewrite pretty_N_go_0|].
  rewrite pretty_N_go_step by lia. apply IH.
  - apply N.div_lt; lia.
  - simpl. unfold pretty_N_char. by repeat case_match.
Qed.

Lemma pretty_N_no_slash (x : N) : no_slash (pretty x) = true.
Proof.
  unfold pretty, pretty_N. case_decide; [done|].
  by apply pretty_N_go_no_slash.
Qed.

(** Two texts without a slash, each followed by a slash, start the same
    string only when they are equal. *)
Lemma no_slash_split (s1 s2 r1 r2 : string) :
  no_slash s1 = true → no_slash s2 = true →
  s1 +:+ String "/" r1 = s2 +:+ String "/" r2 → s1 = s2.
Proof.
  revert s2. induction s1 as [|c s1 IH]; intros [|d s2] H1 H2 Heq;
    simpl in *; try done.
  - injection Heq as <- _. by case_decide.
  - injection Heq as -> _. by case_decide.
  - injection Heq as -> Heq. f_equal. apply IH; [| |done]; by case_decide.
Qed.

Lemma InputAccessor_showPath_number (n m : N) (p q : CanonPath) :
  InputAccessor_showPath n p = InputAccessor_showPath m q → n = m.
Proof.
  unfold InputAccessor_showPath. intros Heq%(inj (String.app "/virtual/")).
  destruct (abs_slash p) as [r1 Hp], (abs_slash q) as [r2 Hq].
  rewrite Hp, Hq in Heq.
  apply no_slash_split in Heq; auto using pretty_N_no_slash.
  by apply (inj pretty) in Heq.
Qed.

Lemma next_number_fresh (n : N) : next_number (next_number n) ≠ next_number n.
Proof.
  unfold next_number.
  assert ((n + 1) mod 2 ^ 64 < 2 ^ 64)%N as Hm by (apply N.mod_lt; lia).
  destruct (decide (((n + 1) mod 2 ^ 64) + 1 = 2 ^ 64)%N) as [Heq|Hne].
  - rewrite Heq, N.Div0.mod_same. lia.
  - rewrite (N.mod_small (_ + 1)) by lia. lia.
Qed.

(** C9, as the code has it: a sandboxed accessor shows root + path, so
    two accessor instances with the same root (here /src, the first and
    the second accessor ever made) show the same label. *)
Lemma showPath_sandboxed_label_shared :
  let a := (makeFSInputAccessor 0 ["src"] None).1 in
  let b := (makeFSInputAccessor 1 ["src"] None).1 in
  FSInputAccessorImpl.number a ≠ FSInputAccessorImpl.number b
  ∧ FSInputAccessorImpl.showPath a ["run.sh"] = "/src/run.sh"
  ∧ FSInputAccessorImpl.showPath a ["run.sh"] = FSInputAccessorImpl.showPath b ["run.sh"].
Proof. by vm_compute. Qed.

(** The number of the accessor made after [k] others. *)
Lemma after_accessors_mod (k : nat) (nextNumber : N) :
  after_accessors (S k) nextNumber = ((nextNumber + N.of_nat (S k)) mod 2 ^ 64)%N.
Proof.
  unfold after_accessors. induction k as [|k IH].
  - cbn. unfold next_number. f_equal.
  - change (Nat.iter (S (S k)) next_number nextNumber)
      with (next_number (Nat.iter (S k) next_number nextNumber)).
    rewrite IH. unfold next_number.
    rewrite N.Div0.add_mod_idemp_l. f_equal. lia.
Qed.

(** Numbers repeat only after 2^64 accessors. *)
Lemma after_accessors_apart (nextNumber : N) (i j : nat) :
  i < j → (N.of_nat (j - i) < 2 ^ 64)%N →
  after_accessors (S i) nextNumber ≠ after_accessors (S j) nextNumber.
Proof.
  intros Hij Hfew. rewrite !after_accessors_mod. intros Heq.
  set (M := (2 ^ 64)%N) in *.
  assert (M ≠ 0)%N as HM by (unfold M; lia).
  pose proof (N.div_mod (nextNumber + N.of_nat (S i)) M HM) as Hi.
  pose proof (N.div_mod (nextNumber + N.of_nat (S j)) M HM) as Hj.
  rewrite <- Heq in Hj.
  set (r := ((nextNumber + N.of_nat (S i)) mod M)%N) in *.
  set (qi := ((nextNumber + N.of_nat (S i)) / M)%N) in *.
  set (qj := ((nextNumber + N.of_nat (S j)) / M)%N) in *.
  clearbody M r qi qj.
  assert (N.of_nat (S j) = N.of_nat (S i) + N.of_nat (j - i))%N as Hsplit by lia.
  assert (qi < qj)%N by nia.
  nia.
Qed.

(** The counter wraps: the accessor made 2^64 accessors later gets the
    same number. *)
Lemma after_accessors_wrap (nextNumber : N) (i : nat) :
  after_accessors (S (i + N.to_nat (2 ^ 64))) nextNumber
  = after_accessors (S i) nextNumber.
Proof.
  rewrite !after_accessors_mod.
  set (M := (2 ^ 64)%N).
  assert (M ≠ 0)%N as HM by (unfold M; lia).
  clearbody M.
  replace (nextNumber + N.of_nat (S (i + N.to_nat M)))%N
    with (nextNumber + N.of_nat (S i) + 1 * M)%N by lia.
  by rewrite N.Div0.mod_add.
Qed.

(** C9, amended: showPath is a label that stays the same over the life of
    an accessor.  A sandboxed accessor renders the absolute path root +
    path, whatever its number, and keeps doing so after allowPath.  An
    accessor that inherits showPath, as the in-memory one, renders
    "/virtual/", its number and the path, and keeps doing so after
    addFile.  Two accessors of this second kind render different labels
    whenever their numbers differ, and the numbers of two accessors
    differ whenever fewer than 2^64 accessors were made from the one to
    the other; the accessor made 2^64 accessors after another one gets
    its number and renders its labels.  Nothing keeps a label of the
    second kind apart from the label of a sandboxed accessor: one rooted
    at /virtual/1 renders the labels of the in-memory accessor number 1. *)
Theorem showPath_labels :
  (∀ (this : FSInputAccessorImpl.t) (path : CanonPath),
     FSInputAccessorImpl.showPath this path
     = abs (path_plus (FSInputAccessorImpl.root this) path))
  ∧ (∀ (this : FSInputAccessorImpl.t) (allowed path : CanonPath),
       FSInputAccessorImpl.showPath (FSInputAccessorImpl.allowPath this allowed) path
       = FSInputAccessorImpl.showPath this path)
  ∧ (∀ (this : MemoryInputAccessorImpl.t) (path : CanonPath),
       showPath this path = "/virtual/" +:+ pretty (number this) +:+ abs path)
  ∧ (∀ (this : MemoryInputAccessorImpl.t) (file : CanonPath) (contents : string)
       (path : CanonPath),
       showPath (MemoryInputAccessorImpl.addFile this file contents) path
       = showPath this path)
  ∧ (∀ (a b : MemoryInputAccessorImpl.t) (p q : CanonPath),
       number a ≠ number b → showPath a p ≠ showPath b q)
  ∧ (∀ (nextNumber : N) (i j : nat) (files_a files_b : gmap CanonPath string)
       (p q : CanonPath),
       i < j → (N.of_nat (j - i) < 2 ^ 64)%N →
       let a := {| MemoryInputAccessorImpl.number := after_accessors (S i) nextNumber;
                   MemoryInputAccessorImpl.files := files_a |} in
       let b := {| MemoryInputAccessorImpl.number := after_accessors (S j) nextNumber;
                   MemoryInputAccessorImpl.files := files_b |} in
       (makeMemoryInputAccessor (after_accessors i nextNumber)).1
         = {| MemoryInputAccessorImpl.number := after_accessors (S i) nextNumber;
              MemoryInputAccessorImpl.files := ∅ |}
       ∧ showPath a p ≠ showPath b q)
  ∧ (∀ (nextNumber : N) (i : nat) (files_a files_b : gmap CanonPath string)
       (p : CanonPath),
       let a := {| MemoryInputAccessorImpl.number := after_accessors (S i) nextNumber;
                   MemoryInputAccessorImpl.files := files_a |} in
       let b := {| MemoryInputAccessorImpl.number :=
                     after_accessors (S (i + N.to_nat (2 ^ 64))) nextNumber;
                   MemoryInputAccessorImpl.files := files_b |} in
       showPath a p = showPath b p)
  ∧ (let sandboxed := (makeFSInputAccessor 1 ["virtual"; "1"] None).1 in
     FSInputAccessorImpl.number sandboxed ≠ number memory_foo
     ∧ FSInputAccessorImpl.showPath sandboxed ["foo.txt"]
       = showPath memory_foo ["foo.txt"]).
Proof.
  split; [done|]. split.
  { intros this allowed path. unfold FSInputAccessorImpl.showPath.
    by rewrite allowPath_root. }
  split; [done|]. split.
  { intros this file contents path. cbn.
    unfold MemoryInputAccessorImpl.addFile.
    by destruct (MemoryInputAccessorImpl.files this !! file). }
  split.
  { intros a b p q Hne Heq. cbn in Heq.
    by apply InputAccessor_showPath_number in Heq. }
  split.
  { intros nextNumber i j files_a files_b p q Hij Hfew a b. split; [done|].
    intros Heq. cbn in Heq. apply InputAccessor_showPath_number in Heq.
    by apply (after_accessors_apart nextNumber i j). }
  split.
  { intros nextNumber i files_a files_b p a b.
    change (showPath a p)
      with ("/virtual/" +:+ pretty (after_accessors (S i) nextNumber) +:+ abs p).
    change (showPath b p)
      with ("/virtual/" +:+
            pretty (after_accessors (S (i + N.to_nat (2 ^ 64))) nextNumber) +:+ abs p).
    by rewrite after_accessors_wrap. }
  by vm_compute.
Qed.

Lemma showPath_labels_witness :
  showPath memory_foo ["foo.txt"] = "/virtual/1/foo.txt"
  ∧ showPath memory_foo ["foo.txt"]
    ≠ showPath (makeMemoryInputAccessor 1).1 ["foo.txt"]
  ∧ showPath
      {| MemoryInputAccessorImpl.number := after_accessors 1 0;
         MemoryInputAccessorImpl.files := ∅ |} ["foo.txt"]
    ≠ showPath
        {| MemoryInputAccessorImpl.number := after_accessors 3 0;
           MemoryInputAccessorImpl.files := ∅ |} ["foo.txt"].
Proof.
  split; [reflexivity|]. split.
  - apply (proj1 (proj2 (proj2 (proj2 (proj2 showPath_labels))))).
    by vm_compute.
  - apply (proj1 (proj2 (proj2 (proj2 (proj2 (proj2 showPath_labels)))))
             0%N 0 2 ∅ ∅ ["foo.txt"] ["foo.txt"]).
    + lia.
    + reflexivity.
Defined.

(** ** The order of directory entries *)

Lemma string_lt_irrefl (a : string) : ¬ string_lt a a.
Proof.
  unfold string_lt. intros Hlt.
  pose proof (String.compare_antisym a a) as Hanti.
  rewrite Hlt in Hanti. discriminate.
Qed.

Lemma string_lt_le (a b : string) : string_lt a b → String.le a b.
Proof. unfold string_lt, String.le, String.leb. by intros ->. Qed.

Lemma string_lt_asym (a b : string) : string_lt a b → ¬ string_lt b a.
Proof.
  unfold string_lt. intros Hab Hba.
  rewrite String.compare_antisym, Hba in Hab. discriminate.
Qed.

#[local] Instance string_lt_trans : Transitive string_lt.
Proof.
  intros a b c Hab Hbc.
  assert (String.le a c) as Hac.
  { transitivity b; by apply string_lt_le. }
  unfold String.le, String.leb in Hac. unfold string_lt.
  destruct (String.compare a c) eqn:Hcmp; [|done|done].
  apply String.compare_eq_iff in Hcmp as ->.
  by destruct (string_lt_asym _ _ Hab).
Qed.

Lemma compare_Gt_lt (a b : string) : String.compare a b = Gt → string_lt b a.
Proof. unfold string_lt. intros Hgt. by rewrite String.compare_antisym, Hgt. Qed.

Section emplace.
Context {V : Type}.
Implicit Types (k : string) (v : V) (m : list (string * V)).

Lemma emplace_elem_of k v m (x : string * V) :
  x ∈ emplace k v m → x = (k, v) ∨ x ∈ m.
Proof.
  induction m as [|[k' v'] m IH]; simpl.
  - intros ->%list_elem_of_singleton. by left.
  - destruct (String.compare k k').
    + by right.
    + intros [->|Hin]%elem_of_cons; [by left | by right].
    + intros [->|Hin]%elem_of_cons; [right; left|].
      destruct (IH Hin) as [->|Hin']; [by left | right; by right].
Qed.

(** [emplace] keeps the keys strictly increasing. *)
Lemma emplace_sorted k v m :
  StronglySorted key_lt m → StronglySorted key_lt (emplace k v m).
Proof.
  induction m as [|[k' v'] m IH]; simpl; intros Hsorted.
  - repeat constructor.
  - apply StronglySorted_inv in Hsorted as [Hm Hall].
    destruct (String.compare k k') eqn:Hcmp.
    + by constructor.
    + constructor; [by constructor|].
      constructor; [done|].
      eapply Forall_impl; [exact Hall|].
      intros y Hy. unfold key_lt in *. simpl in *. by transitivity k'.
    + constructor; [by apply IH|].
      apply Forall_forall. intros x [->|Hin]%emplace_elem_of.
      * by apply compare_Gt_lt.
      * by eapply Forall_forall in Hall.
Qed.

End emplace.

(** Entering a name under itself adds that pair and nothing else. *)
Lemma emplace_diag_elem_of (n : string) (start : list (string * string))
    (y : string * string) :
  (∀ z, z ∈ start → z.2 = z.1) →
  y ∈ emplace n n start ↔ y = (n, n) ∨ y ∈ start.
Proof.
  induction start as [|[k' v'] start IH]; intros Hdiag; simpl.
  - rewrite list_elem_of_singleton, elem_of_nil. tauto.
  - destruct (String.compare n k') eqn:Hcmp.
    + apply String.compare_eq_iff in Hcmp as <-.
      assert (v' = n) as -> by (apply (Hdiag (n, v')); left).
      rewrite elem_of_cons. tauto.
    + rewrite !elem_of_cons. tauto.
    + rewrite !elem_of_cons, IH; [tauto|].
      intros z Hz. apply Hdiag. by right.
Qed.

(** What [unhacked] holds when started from [start]. *)
Lemma unhacked_fold_elem_of (entries : DirEntries) (start : list (string * string))
    (x : string * string) :
  (∀ y, y ∈ start → y.2 = y.1) →
  x ∈ fold_left (λ unhacked i, emplace i.1 i.1 unhacked) entries start
  ↔ x ∈ start ∨ (x.2 = x.1 ∧ x.1 ∈ entries.*1).
Proof.
  revert start. induction entries as [|[n ty] entries IH]; intros start Hdiag; simpl.
  - rewrite elem_of_nil. tauto.
  - rewrite IH.
    + rewrite (emplace_diag_elem_of _ _ _ Hdiag), elem_of_cons.
      destruct x as [x1 x2]; simpl. split.
      * intros [[[= -> ->]|?]|[? ?]]; auto.
      * intros [?|[-> [->|?]]]; auto.
    + intros y [->|Hy]%(emplace_diag_elem_of _ _ _ Hdiag); [done | by apply Hdiag].
Qed.

Lemma unhacked_fold_sorted (entries : DirEntries) (start : list (string * string)) :
  StronglySorted key_lt start →
  StronglySorted key_lt (fold_left (λ unhacked i, emplace i.1 i.1 unhacked) entries start).
Proof.
  revert start. induction entries as [|i entries IH]; intros start Hsorted; simpl.
  - done.
  - by apply IH, emplace_sorted.
Qed.

Lemma unhacked_of_elem_of (entries : DirEntries) (x : string * string) :
  x ∈ unhacked_of entries ↔ x.2 = x.1 ∧ x.1 ∈ entries.*1.
Proof.
  unfold unhacked_of. rewrite unhacked_fold_elem_of.
  - rewrite elem_of_nil. tauto.
  - intros y Hy. by apply elem_of_nil in Hy.
Qed.

Lemma unhacked_of_sorted (entries : DirEntries) :
  StronglySorted key_lt (unhacked_of entries).
Proof. apply unhacked_fold_sorted. constructor. Qed.

Lemma key_lt_sorted_NoDup {V} (m : list (string * V)) :
  StronglySorted key_lt m → NoDup m.
Proof.
  induction 1 as [|x m Hm IH Hall]; constructor; [|done].
  intros Hin. eapply Forall_forall in Hall; [|exact Hin].
  by apply string_lt_irrefl in Hall.
Qed.

(** [unhacked] depends on the names listed, not on their order. *)
Lemma unhacked_of_names (entries1 entries2 : DirEntries) :
  (∀ n, n ∈ entries1.*1 ↔ n ∈ entries2.*1) →
  unhacked_of entries1 = unhacked_of entries2.
Proof.
  intros Hnames.
  apply (StronglySorted_unique_strong key_lt); try apply unhacked_of_sorted.
  - intros x1 x2 _ _ H12 H21. by destruct (string_lt_asym _ _ H12).
  - apply NoDup_Permutation; try (apply key_lt_sorted_NoDup, unhacked_of_sorted).
    intros x. rewrite !unhacked_of_elem_of. by rewrite Hnames.
Qed.

Lemma unhacked_of_Permutation (entries1 entries2 : DirEntries) :
  entries1.*1 ≡ₚ entries2.*1 → unhacked_of entries1 = unhacked_of entries2.
Proof. intros Hperm. apply unhacked_of_names. intros n. by rewrite Hperm. Qed.

Lemma unhacked_of_names_sorted (entries : DirEntries) :
  StronglySorted string_lt (unhacked_of entries).*1.
Proof.
  eapply StronglySorted_fmap; [|apply unhacked_of_sorted]. done.
Qed.

Lemma unhacked_of_names_elem_of (entries : DirEntries) (n : string) :
  n ∈ (unhacked_of entries).*1 ↔ n ∈ entries.*1.
Proof.
  rewrite list_elem_of_fmap. split.
  - intros (x & -> & Hx). by apply unhacked_of_elem_of in Hx as [_ Hx].
  - intros Hn. exists (n, n). split; [done|]. by apply unhacked_of_elem_of.
Qed.

(** ** Walks that agree *)

Lemma bind_ext {A B} (m1 m2 : W A) (k1 k2 : A → W B) (sink : Sink) :
  m1 sink = m2 sink →
  (∀ a sink', k1 a sink' = k2 a sink') →
  (m1 ≫= k1) sink = (m2 ≫= k2) sink.
Proof.
  unfold mbind, W_bind, bind. intros -> Hk.
  destruct (m2 sink) as [sink' [a| |]]; auto.
Qed.

Lemma bind_lift_Ok {A B} (a : A) (k : A → W B) (sink : Sink) :
  (lift (Ok a) ≫= k) sink = k a sink.
Proof. reflexivity. Qed.

Lemma bind_lift_Throw {A B} (e : Exn) (k : A → W B) (sink : Sink) :
  (lift (Throw e) ≫= k) sink = (sink, Raised e).
Proof. reflexivity. Qed.

Lemma for_each_ext {A} (l : list A) (body1 body2 : A → W unit) :
  (∀ x, x ∈ l → ∀ sink, body1 x sink = body2 x sink) →
  ∀ sink, for_each l body1 sink = for_each l body2 sink.
Proof.
  induction l as [|x l IH]; intros Hbody sink; simpl; [done|].
  apply bind_ext; [apply Hbody; left|].
  intros _ sink'. apply IH. intros y Hy. apply Hbody. by right.
Qed.

(** Step over the statements both walks share. *)
Ltac same_step := apply bind_ext; [done|]; intros ? ?.

Section agreement.
Context {T1 T2 : Type} `{InputAccessor T1} `{InputAccessor T2}.
Variables (acc1 : T1) (acc2 : T2).
Variables (filter1 filter2 : string → bool).
Hypothesis same_lstat : ∀ path, lstat acc1 path = lstat acc2 path.
Hypothesis same_readFile : ∀ path, readFile acc1 path = readFile acc2 path.
Hypothesis same_readLink : ∀ path, readLink acc1 path = readLink acc2 path.
Hypothesis same_readDirectory :
  ∀ path, same_listing (readDirectory acc1 path) (readDirectory acc2 path).
Hypothesis same_filter : ∀ p, filter1 p = filter2 p.

Lemma dump_agree (fuel : nat) (path : CanonPath) (sink : Sink) :
  dump acc1 filter1 fuel path sink = dump acc2 filter2 fuel path sink.
Proof.
  revert path sink. induction fuel as [|fuel IH]; intros path sink; [done|].
  cbn [dump]; unfold dump_node. apply bind_ext; [by rewrite same_lstat|]. intros st sink1.
  same_step. apply bind_ext; [|done].
  destruct (type st).
  - do 3 same_step. unfold dumpContents. by rewrite same_readFile.
  - do 3 same_step. by rewrite same_readLink.
  - do 2 same_step.
    pose proof (same_readDirectory path) as Hdir. unfold same_listing in Hdir.
    destruct (readDirectory acc1 path) as [entries1|e1],
      (readDirectory acc2 path) as [entries2|e2]; try done.
    + rewrite !bind_lift_Ok, (unhacked_of_Permutation _ _ Hdir).
      apply for_each_ext. intros i _ sink2. rewrite same_filter.
      destruct (filter2 _); [|done].
      do 5 same_step. apply bind_ext; [apply IH | done].
    + by subst.
  - done.
Qed.

(** C2: dumpPath is a function of what the accessor answers and of the
    filter.  Two walks whose accessors give the same lstat, readFile and
    readLink answers and the same directory entries, listed in whatever
    order, and whose filters decide alike, write the same bytes and end
    the same way, from the same sink, at every depth bound; the two walks
    may be two runs over one accessor.  The entries of a directory are
    visited in strictly increasing order of their names, which are the
    names listed. *)
Theorem dumpPath_deterministic :
  (∀ (fuel : nat) (path : CanonPath) (sink : Sink),
     dumpPath acc1 filter1 fuel path sink = dumpPath acc2 filter2 fuel path sink)
  ∧ (∀ entries : DirEntries,
       StronglySorted string_lt (unhacked_of entries).*1
       ∧ ∀ n, n ∈ (unhacked_of entries).*1 ↔ n ∈ entries.*1).
Proof.
  split.
  - intros fuel path sink. unfold dumpPath.
    same_step. apply dump_agree.
  - intros entries. split.
    + apply unhacked_of_names_sorted.
    + apply unhacked_of_names_elem_of.
Qed.

End agreement.


Lemma same_listing_refl (r : result DirEntries) : same_listing r r.
Proof. destruct r; simpl; reflexivity. Qed.

(** *** The sandboxed accessor lists names, whatever the native order *)

Lemma emplace_keys {V} (k : string) (v : V) (m : list (string * V)) (k' : string) :
  k' ∈ (emplace k v m).*1 ↔ k' = k ∨ k' ∈ m.*1.
Proof.
  induction m as [|[k0 v0] m IH]; simpl.
  - rewrite list_elem_of_singleton, elem_of_nil. tauto.
  - destruct (String.compare k k0) eqn:Hcmp; simpl.
    + apply String.compare_eq_iff in Hcmp as <-.
      rewrite elem_of_cons. tauto.
    + rewrite !elem_of_cons. simpl. tauto.
    + rewrite !elem_of_cons, IH. tauto.
Qed.

Section listing.
Variable allowed_name : string → bool.

Lemma collect_keys (entries : list DirEntry) (start : DirEntries) (k : string) :
  k ∈ (collect allowed_name entries start).*1
  ↔ k ∈ start.*1 ∨ (allowed_name k = true ∧ k ∈ name <$> entries).
Proof.
  revert start. induction entries as [|entry entries IH]; intros start; simpl.
  - rewrite elem_of_nil. tauto.
  - unfold collect in *. simpl. rewrite IH, elem_of_cons.
    destruct (allowed_name (name entry)) eqn:Hallowed.
    + rewrite emplace_keys. split.
      * intros [[->|?]|[? ?]]; auto.
      * intros [?|[? [->|?]]]; auto.
    + split.
      * intros [?|[? ?]]; auto.
      * intros [?|[Hk [->|?]]]; auto. congruence.
Qed.

Lemma collect_sorted (entries : list DirEntry) (start : DirEntries) :
  StronglySorted key_lt start →
  StronglySorted key_lt (collect allowed_name entries start).
Proof.
  revert start. induction entries as [|entry entries IH]; intros start Hsorted; simpl.
  - done.
  - unfold collect in *. simpl. apply IH.
    destruct (allowed_name (name entry)); [by apply emplace_sorted | done].
Qed.

Lemma collect_Permutation (entries1 entries2 : list DirEntry) :
  entries1 ≡ₚ entries2 →
  (collect allowed_name entries1 []).*1 ≡ₚ (collect allowed_name entries2 []).*1.
Proof.
  intros Hperm.
  assert (∀ entries, NoDup (collect allowed_name entries []).*1) as Hnodup.
  { intros entries.
    assert (StronglySorted string_lt (collect allowed_name entries []).*1) as Hsorted.
    { eapply StronglySorted_fmap; [|apply collect_sorted; constructor]. done. }
    induction Hsorted as [|x m Hm IH Hall]; constructor; [|done].
    intros Hin. eapply Forall_forall in Hall; [|exact Hin].
    by apply string_lt_irrefl in Hall. }
  apply NoDup_Permutation; [apply Hnodup..|].
  intros k. rewrite !collect_keys. by rewrite Hperm.
Qed.

End listing.

(** Two file systems that resolve symlinks alike and list the same
    entries in each directory, in whatever order, give the sandboxed
    accessor the same names to list. *)
Lemma FS_readDirectory_native_order
    (os1 os2 : OS) (this : FSInputAccessorImpl.t) (path : CanonPath) :
  (∀ p, resolveSymlinks os1 p = resolveSymlinks os2 p) →
  (∀ p, match nix_readDirectory os1 p, nix_readDirectory os2 p with
        | Ok l1, Ok l2 => l1 ≡ₚ l2
        | Throw e1, Throw e2 => e1 = e2
        | _, _ => False
        end) →
  same_listing
    (readDirectory (InputAccessor := FS_accessor os1) this path)
    (readDirectory (InputAccessor := FS_accessor os2) this path).
Proof.
  intros Hresolve Hlist. cbn [readDirectory FS_accessor]. unfold outcome_of.
  run_method. rewrite <- Hresolve.
  set (absPath := match resolveSymlinks os1 _ with Ok r => r | Throw _ => _ end).
  destruct (FSInputAccessorImpl.checkAllowed this absPath) as [log [[]|e]]; [|done].
  specialize (Hlist (abs absPath)).
  destruct (nix_readDirectory os1 (abs absPath)) as [l1|e1],
    (nix_readDirectory os2 (abs absPath)) as [l2|e2]; try done.
  cbn.
  apply (collect_Permutation
           (λ n, FSInputAccessorImpl.isAllowed this (path_push absPath n))
           l1 l2 Hlist).
Qed.

Lemma dumpPath_deterministic_witness :
  dumpPath (H := FS_accessor Example_src.os) Example_src.accessor
    Example_src.accept_all 2 [] ""
  = dumpPath (H := FS_accessor Example_src.os_link_first) Example_src.accessor
      Example_src.accept_all 2 [] "".
Proof.
  apply (dumpPath_deterministic
           (H := FS_accessor Example_src.os)
           (H0 := FS_accessor Example_src.os_link_first)
           Example_src.accessor Example_src.accessor
           Example_src.accept_all Example_src.accept_all).
  - intros path. reflexivity.
  - intros path. reflexivity.
  - intros path. reflexivity.
  - intros path. apply FS_readDirectory_native_order.
    + intros p. reflexivity.
    + intros p. cbn. destruct (decide (p = "/src")).
      * apply perm_swap.
      * by destruct (decide (p = "/")).
  - intros p. reflexivity.
Defined.


(** ** The archive of a small directory *)

Lemma string_app_assoc (s1 s2 s3 : string) : (s1 +:+ s2) +:+ s3 = s1 +:+ s2 +:+ s3.
Proof.
  induction s1 as [|c s1 IH]; [done|].
  change (String c ((s1 +:+ s2) +:+ s3) = String c (s1 +:+ s2 +:+ s3)).
  by rewrite IH.
Qed.

(** C1: dumping, with a filter that accepts everything, a directory that
    holds exactly the executable regular file run.sh with the 7 bytes
    "echo hi" and the symlink link to "target" writes the magic token,
    then a directory record with the entry link before the entry run.sh;
    the symlink node carries the target "target", the file node the
    executable marker, the length 7, the 7 bytes and one zero byte of
    padding.  This holds in whatever order the directory is listed. *)
Theorem dumpPath_run_sh_link
    {T : Type} `{InputAccessor T} (acc : T) (filter : string → bool)
    (root : CanonPath) (entries : DirEntries) (dir_x link_x : bool)
    (fuel : nat) (sink : Sink) :
  (∀ p, filter p = true) →
  lstat acc root = Ok {| type := tDirectory; isExecutable := dir_x |} →
  readDirectory acc root = Ok entries →
  entries.*1 ≡ₚ ["run.sh"; "link"] →
  lstat acc (path_push root "run.sh")
    = Ok {| type := tRegular; isExecutable := true |} →
  readFile acc (path_push root "run.sh") = Ok "echo hi" →
  lstat acc (path_push root "link")
    = Ok {| type := tSymlink; isExecutable := link_x |} →
  readLink acc (path_push root "link") = Ok "target" →
  dumpPath acc filter (S (S fuel)) root sink =
    (sink +:+
     writeString "nix-archive-1" +:+
     writeString "(" +:+ writeString "type" +:+ writeString "directory" +:+
       writeString "entry" +:+ writeString "(" +:+
         writeString "name" +:+ writeString "link" +:+ writeString "node" +:+
         writeString "(" +:+ writeString "type" +:+ writeString "symlink" +:+
           writeString "target" +:+ writeString "target" +:+
         writeString ")" +:+
       writeString ")" +:+
       writeString "entry" +:+ writeString "(" +:+
         writeString "name" +:+ writeString "run.sh" +:+ writeString "node" +:+
         writeString "(" +:+ writeString "type" +:+ writeString "regular" +:+
           writeString "executable" +:+ writeString "" +:+
           writeString "contents" +:+ u64le 7 +:+ "echo hi" +:+ String zero "" +:+
         writeString ")" +:+
       writeString ")" +:+
     writeString ")",
     Done tt).
Proof.
  intros Hfilter Hroot Hdir Hnames Hrun Hfile Hlink Htarget.
  unfold dumpPath. cbn [dump]; unfold dump_node.
  rewrite Hroot, Hdir.
  unfold mbind, W_bind, bind, put_string.
  cbn [lift ret type isExecutable].
  rewrite (unhacked_of_Permutation entries [("run.sh", None); ("link", None)])
    by done.
  change (unhacked_of [("run.sh", None); ("link", None)])
    with [("link", "link"); ("run.sh", "run.sh")].
  cbn [for_each dump fst snd]; unfold dump_node.
  rewrite !Hfilter, Hlink, Htarget, Hrun. unfold dumpContents. rewrite Hfile.
  unfold mbind, W_bind, bind, put_string, put_num, put_raw, writePadding.
  cbn [lift ret type isExecutable].
  rewrite !string_app_assoc. reflexivity.
Qed.

Lemma dumpPath_run_sh_link_witness :
  dumpPath (H := FS_accessor Example_src.os) Example_src.accessor
    Example_src.accept_all 2 [] ""
  = ("" +:+
     writeString "nix-archive-1" +:+
     writeString "(" +:+ writeString "type" +:+ writeString "directory" +:+
       writeString "entry" +:+ writeString "(" +:+
         writeString "name" +:+ writeString "link" +:+ writeString "node" +:+
         writeString "(" +:+ writeString "type" +:+ writeString "symlink" +:+
           writeString "target" +:+ writeString "target" +:+
         writeString ")" +:+
       writeString ")" +:+
       writeString "entry" +:+ writeString "(" +:+
         writeString "name" +:+ writeString "run.sh" +:+ writeString "node" +:+
         writeString "(" +:+ writeString "type" +:+ writeString "regular" +:+
           writeString "executable" +:+ writeString "" +:+
           writeString "contents" +:+ u64le 7 +:+ "echo hi" +:+ String zero "" +:+
         writeString ")" +:+
       writeString ")" +:+
     writeString ")",
     Done tt).
Proof.
  apply (dumpPath_run_sh_link (H := FS_accessor Example_src.os)
           Example_src.accessor Example_src.accept_all []
           [("link", Some tSymlink); ("run.sh", Some tRegular)] false false 0 "").
  - reflexivity.
  - reflexivity.
  - reflexivity.
  - apply perm_swap.
  - reflexivity.
  - reflexivity.
  - reflexivity.
  - reflexivity.
Defined.


(** ** The filter and the root *)

Lemma string_app_nil_r (s : string) : s +:+ "" = s.
Proof.
  induction s as [|c s IH]; [done|].
  change (String c (s +:+ "") = String c s). by rewrite IH.
Qed.

Lemma appends_ret {A} (a : A) : appends (ret a).
Proof. intros sink. exists "". by rewrite string_app_nil_r. Qed.

Lemma appends_throw {A} (e : Exn) : appends (throw (A := A) e).
Proof. intros sink. exists "". by rewrite string_app_nil_r. Qed.

Lemma appends_lift {A} (r : result A) : appends (lift r).
Proof. destruct r; [apply appends_ret | apply appends_throw]. Qed.

Lemma appends_put_string (s : string) : appends (put_string s).
Proof. intros sink. by eexists. Qed.

Lemma appends_bind {A B} (m : W A) (k : A → W B) :
  appends m → (∀ a, appends (k a)) → appends (m ≫= k).
Proof.
  intros Hm Hk sink. unfold mbind, W_bind, bind.
  destruct (Hm sink) as [w1 Hw1].
  destruct (m sink) as [sink1 [a| |]]; simpl in Hw1; subst sink1.
  - destruct (Hk a (sink +:+ w1)) as [w2 Hw2].
    exists (w1 +:+ w2). by rewrite Hw2, string_app_assoc.
  - by exists w1.
  - by exists w1.
Qed.

Lemma appends_for_each {A} (l : list A) (body : A → W unit) :
  (∀ x, appends (body x)) → appends (for_each l body).
Proof.
  intros Hbody. induction l as [|x l IH]; simpl.
  - apply appends_ret.
  - by apply appends_bind.
Qed.

Create HintDb appends.
#[local] Hint Resolve appends_ret appends_throw appends_lift appends_put_string : appends.

(** Step over a statement that is known to append. *)
Ltac appends_step := apply appends_bind; [solve [auto with appends]|]; intros ?.

Section filter.
Context {T : Type} `{InputAccessor T}.
Variable acc : T.

Lemma appends_dump (filter : string → bool) (fuel : nat) (path : CanonPath) :
  appends (dump acc filter fuel path).
Proof.
  revert path. induction fuel as [|fuel IH]; intros path.
  { intros sink. exists "". by rewrite string_app_nil_r. }
  cbn [dump]; unfold dump_node. do 2 appends_step.
  apply appends_bind; [|auto with appends].
  destruct (type a).
  - do 2 appends_step. apply appends_bind.
    + destruct (isExecutable a); [|auto with appends].
      appends_step. auto with appends.
    + intros _. unfold dumpContents. do 2 appends_step.
      repeat (apply appends_bind; [by intros ?; eexists|]; intros _).
      by intros ?; eexists.
  - do 4 appends_step. auto with appends.
  - do 3 appends_step.
    apply appends_for_each. intros i.
    destruct (filter _); [|auto with appends].
    do 5 appends_step.
    apply appends_bind; [apply IH|auto with appends].
  - apply appends_throw.
Qed.

(** The filter is asked about paths strictly below the one walked. *)
Lemma dump_filter_below (filter1 filter2 : string → bool) (fuel : nat)
    (path : CanonPath) (sink : Sink) :
  (∀ rest, rest ≠ [] →
     filter1 (abs (path_plus path rest)) = filter2 (abs (path_plus path rest))) →
  dump acc filter1 fuel path sink = dump acc filter2 fuel path sink.
Proof.
  revert path sink. induction fuel as [|fuel IH]; intros path sink Hbelow; [done|].
  cbn [dump]; unfold dump_node. do 2 same_step. apply bind_ext; [|done].
  destruct (type a); try done.
  do 3 same_step.
  apply for_each_ext. intros i _ sink2.
  change (path_push path i.1) with (path_plus path [i.1]).
  rewrite Hbelow by done.
  destruct (filter2 _); [|done].
  do 5 same_step. apply bind_ext; [|done].
  apply IH. intros rest Hrest. unfold path_push, path_plus.
  rewrite <- !(assoc_L (++)). by apply Hbelow.
Qed.

Lemma for_each_skip {A} (l : list A) (body : A → W unit) (sink : Sink) :
  (∀ x, body x = ret tt) → for_each l body sink = (sink, Done tt).
Proof.
  intros Hbody. induction l as [|x l IH]; simpl; [done|].
  rewrite Hbody. exact IH.
Qed.

End filter.

Lemma string_length_app (s1 s2 : string) :
  String.length (s1 +:+ s2) = String.length s1 + String.length s2.
Proof.
  induction s1 as [|c s1 IH]; [done|].
  change (S (String.length (s1 +:+ s2)) = S (String.length s1 + String.length s2)).
  by rewrite IH.
Qed.

(** *** The text of a path below another *)

Lemma abs_segments_app (p q : CanonPath) :
  abs_segments (p ++ q) = abs_segments p +:+ abs_segments q.
Proof.
  induction p as [|c p IH]; [done|].
  simpl. by rewrite IH, !string_app_assoc.
Qed.

Lemma abs_segments_empty (p : CanonPath) : String.length (abs_segments p) = 0 → p = [].
Proof. by destruct p. Qed.

(** The text of a path strictly below [root] is the text of [root] in one
    case only: the empty name right under the root of the accessor. *)
Lemma abs_below_differs (root below : CanonPath) :
  abs (path_plus root below) = abs root →
  below = [] ∨ (root = [] ∧ below = [""]).
Proof.
  unfold path_plus. destruct below as [|c below]; [by left|].
  intros Htext. right.
  apply (f_equal String.length) in Htext.
  destruct root as [|r root].
  - change (String.length ("/" +:+ c +:+ abs_segments below) = 1) in Htext.
    rewrite !string_length_app in Htext. cbn in Htext.
    assert (String.length c = 0) as Hc by lia.
    assert (String.length (abs_segments below) = 0) as Hbelow by lia.
    apply abs_segments_empty in Hbelow as ->. by destruct c.
  - change (abs ((r :: root) ++ c :: below))
      with (abs_segments ((r :: root) ++ c :: below)) in Htext.
    change (abs (r :: root)) with (abs_segments (r :: root)) in Htext.
    rewrite abs_segments_app in Htext.
    change (abs_segments (c :: below)) with ("/" +:+ c +:+ abs_segments below) in Htext.
    rewrite !string_length_app in Htext. cbn in Htext. lia.
Qed.




(** ** Fuel *)

Lemma bind_finished {A B} (m1 m2 : W A) (k1 k2 : A → W B) (sink : Sink) :
  finished ((m2 ≫= k2) sink) →
  (finished (m2 sink) → m1 sink = m2 sink) →
  (∀ a sink', finished (k2 a sink') → k1 a sink' = k2 a sink') →
  (m1 ≫= k1) sink = (m2 ≫= k2) sink.
Proof.
  unfold mbind, W_bind, bind. intros Hfin Hm Hk.
  destruct (m2 sink) as [sink' [a| |]] eqn:Hm2.
  - rewrite Hm by done. by apply Hk.
  - by rewrite Hm.
  - done.
Qed.

Lemma for_each_finished {A} (l : list A) (body1 body2 : A → W unit) (sink : Sink) :
  finished (for_each l body2 sink) →
  (∀ x sink', finished (body2 x sink') → body1 x sink' = body2 x sink') →
  for_each l body1 sink = for_each l body2 sink.
Proof.
  revert sink. induction l as [|x l IH]; intros sink Hfin Hbody; simpl; [done|].
  apply bind_finished; [done|by auto|].
  intros _ sink' Hfin'. by apply IH.
Qed.

(** Step over a statement both runs share, keeping that the rest ended. *)
Ltac finished_step := apply bind_finished; [done|done|]; intros ? ? ?.

Section fuel.
Context {T : Type} `{InputAccessor T}.
Variable acc : T.
Variable filter : string → bool.

Lemma dump_node_finished (dump1 dump2 : CanonPath → W unit)
    (path : CanonPath) (sink : Sink) :
  (∀ p s, finished (dump2 p s) → dump1 p s = dump2 p s) →
  finished (dump_node acc filter dump2 path sink) →
  dump_node acc filter dump1 path sink = dump_node acc filter dump2 path sink.
Proof.
  intros Hdump Hfin. unfold dump_node in *.
  do 2 finished_step. apply bind_finished; [done| |done].
  intros Hfin'. destruct (type a); try done.
  do 3 finished_step.
  apply for_each_finished; [done|].
  intros i sink2 Hbody. destruct (filter _); [|done].
  do 5 finished_step. apply bind_finished; [done| |done].
  apply Hdump.
Qed.

(** A walk that ended within its fuel ends the same way with more. *)
Lemma dump_more_fuel (fuel : nat) (path : CanonPath) (sink : Sink) :
  finished (dump acc filter fuel path sink) →
  dump acc filter (S fuel) path sink = dump acc filter fuel path sink.
Proof.
  revert path sink. induction fuel as [|fuel IH]; intros path sink Hfin; [done|].
  change (dump_node acc filter (dump acc filter (S fuel)) path sink
          = dump_node acc filter (dump acc filter fuel) path sink).
  by apply dump_node_finished.
Qed.

Lemma dump_enough_fuel (fuel extra : nat) (path : CanonPath) (sink : Sink) :
  finished (dump acc filter fuel path sink) →
  dump acc filter (extra + fuel) path sink = dump acc filter fuel path sink.
Proof.
  intros Hfin. induction extra as [|extra IH]; [done|].
  change (S extra + fuel) with (S (extra + fuel)).
  rewrite dump_more_fuel; [done|]. by rewrite IH.
Qed.

End fuel.

(** On the in-memory accessor the walk stops at its first [lstat]: the
    magic token is all it writes. *)
Lemma dumpPath_memory_accessor (this : MemoryInputAccessorImpl.t)
    (filter : string → bool) (fuel : nat) (path : CanonPath) (sink : Sink) :
  dumpPath this filter (S fuel) path sink
  = (sink +:+ writeString narVersionMagic1,
     Raised (UnimplementedError "MemoryInputAccessor::lstat")).
Proof. reflexivity. Qed.


(** * Further properties *)

(** ** The sandbox *)

Lemma isAllowed_within (this : FSInputAccessorImpl.t) (absPath : CanonPath) :
  FSInputAccessorImpl.isAllowed this absPath = true →
  isWithin absPath (FSInputAccessorImpl.root this) = true.
Proof.
  unfold FSInputAccessorImpl.isAllowed.
  by destruct (isWithin absPath (FSInputAccessorImpl.root this)).
Qed.

Lemma makeAbsPath_absPath_of (os : OS) (this : FSInputAccessorImpl.t) (path : CanonPath) :
  FSInputAccessorImpl.makeAbsPath os this path
  = ([CallResolveSymlinks (path_plus (FSInputAccessorImpl.root this) path)],
     Ok (absPath_of os this path)).
Proof. apply makeAbsPath_run. Qed.

(** Unfold a method into what it does after [makeAbsPath]. *)
Ltac run_from_absPath :=
  unfold FSInputAccessorImpl.readFile, FSInputAccessorImpl.pathExists,
    FSInputAccessorImpl.lstat, FSInputAccessorImpl.readLink,
    FSInputAccessorImpl.readDirectory;
  rewrite ?makeAbsPath_absPath_of;
  unfold mbind, IO_bind, io_bind, mret, IO_ret, io_ret, io_call; cbn [fst snd].

(** The calls of each method on a path that is refused: the resolution
    alone. *)
Lemma calls_denied (os : OS) (this : FSInputAccessorImpl.t) (path : CanonPath) :
  FSInputAccessorImpl.isAllowed this (absPath_of os this path) = false →
  let resolve := [CallResolveSymlinks (path_plus (FSInputAccessorImpl.root this) path)] in
  FSInputAccessorImpl.readFile os this path
    = (resolve, Throw (Forbidden (absPath_of os this path)))
  ∧ FSInputAccessorImpl.pathExists os this path = (resolve, Ok false)
  ∧ FSInputAccessorImpl.lstat os this path
    = (resolve, Throw (Forbidden (absPath_of os this path)))
  ∧ FSInputAccessorImpl.readDirectory os this path
    = (resolve, Throw (Forbidden (absPath_of os this path)))
  ∧ FSInputAccessorImpl.readLink os this path
    = (resolve, Throw (Forbidden (absPath_of os this path))).
Proof.
  intros Hdenied resolve. unfold resolve.
  repeat split; run_from_absPath;
    rewrite ?(checkAllowed_denied _ _ Hdenied), ?Hdenied; reflexivity.
Qed.

(** The calls of each method on a path that passes the check. *)
Lemma calls_allowed (os : OS) (this : FSInputAccessorImpl.t) (path : CanonPath) :
  FSInputAccessorImpl.isAllowed this (absPath_of os this path) = true →
  let resolve := CallResolveSymlinks (path_plus (FSInputAccessorImpl.root this) path) in
  let at_path := abs (absPath_of os this path) in
  FSInputAccessorImpl.readFile os this path
    = ([resolve; CallReadFile at_path], nix_readFile os at_path)
  ∧ FSInputAccessorImpl.pathExists os this path
    = ([resolve; CallPathExists at_path], nix_pathExists os at_path)
  ∧ FSInputAccessorImpl.lstat os this path
    = ([resolve; CallLstat at_path],
       FSInputAccessorImpl.stat_of_mode <$> nix_lstat os at_path)
  ∧ FSInputAccessorImpl.readDirectory os this path
    = ([resolve; CallReadDirectory at_path],
       (λ entries,
          collect
            (λ n, FSInputAccessorImpl.isAllowed this
                    (path_push (absPath_of os this path) n))
            entries []) <$> nix_readDirectory os at_path)
  ∧ FSInputAccessorImpl.readLink os this path
    = ([resolve; CallReadLink at_path], nix_readLink os at_path).
Proof.
  intros Hallowed resolve at_path. unfold resolve, at_path.
  repeat split; run_from_absPath;
    rewrite ?(checkAllowed_allowed _ _ Hallowed), ?Hallowed; cbn [fst snd app].
  - reflexivity.
  - reflexivity.
  - by destruct (nix_lstat os _).
  - by destruct (nix_readDirectory os _).
  - reflexivity.
Qed.

(** X1: whatever the method and the path, every path that reaches a
    [nix::] primitive is the text of the resolved path, which passed
    [isAllowed] and so lies within the root. *)
Theorem sandbox_calls_within_root
    (os : OS) (this : FSInputAccessorImpl.t) (path : CanonPath)
    (c : Call) (p : string) :
  c ∈ calls (FSInputAccessorImpl.readFile os this path)
      ++ calls (FSInputAccessorImpl.pathExists os this path)
      ++ calls (FSInputAccessorImpl.lstat os this path)
      ++ calls (FSInputAccessorImpl.readDirectory os this path)
      ++ calls (FSInputAccessorImpl.readLink os this path) →
  nix_call_path c = Some p →
  p = abs (absPath_of os this path)
  ∧ FSInputAccessorImpl.isAllowed this (absPath_of os this path) = true
  ∧ isWithin (absPath_of os this path) (FSInputAccessorImpl.root this) = true.
Proof.
  intros Hc Hp.
  destruct (FSInputAccessorImpl.isAllowed this (absPath_of os this path)) eqn:Hallowed.
  - destruct (calls_allowed os this path Hallowed) as (H1 & H2 & H3 & H4 & H5).
    rewrite H1, H2, H3, H4, H5 in Hc. unfold calls in Hc. cbn [fst app] in Hc.
    split; [|split; [done | by apply isAllowed_within]].
    repeat (apply elem_of_cons in Hc as [->|Hc]; [cbn in Hp; congruence|]).
    by apply elem_of_nil in Hc.
  - destruct (calls_denied os this path Hallowed) as (H1 & H2 & H3 & H4 & H5).
    rewrite H1, H2, H3, H4, H5 in Hc. unfold calls in Hc. cbn [fst app] in Hc.
    repeat (apply elem_of_cons in Hc as [->|Hc]; [cbn in Hp; congruence|]).
    by apply elem_of_nil in Hc.
Qed.

Lemma sandbox_calls_within_root_witness :
  "/src/run.sh" = abs (absPath_of Example_src.os Example_src.restricted ["run.sh"])
  ∧ FSInputAccessorImpl.isAllowed Example_src.restricted
      (absPath_of Example_src.os Example_src.restricted ["run.sh"]) = true
  ∧ isWithin (absPath_of Example_src.os Example_src.restricted ["run.sh"])
      (FSInputAccessorImpl.root Example_src.restricted) = true.
Proof.
  apply (sandbox_calls_within_root Example_src.os Example_src.restricted ["run.sh"]
           (CallReadFile "/src/run.sh") "/src/run.sh").
  - apply list_elem_of_In. vm_compute. tauto.
  - reflexivity.
Defined.

Lemma collect_elem_of (allowed_name : string → bool) (entries : list DirEntry)
    (start : DirEntries) (x : string * option Type_) :
  x ∈ collect allowed_name entries start →
  x ∈ start
  ∨ ∃ e, e ∈ entries ∧ allowed_name (name e) = true
         ∧ x = (name e, FSInputAccessorImpl.entry_type e).
Proof.
  revert start. induction entries as [|e entries IH]; intros start; simpl.
  - by left.
  - unfold collect in *. simpl. intros [Hin|(e' & He' & Hrest)]%IH.
    + destruct (allowed_name (name e)) eqn:Hallowed; [|by left].
      apply emplace_elem_of in Hin as [->|Hin]; [|by left].
      right. exists e. split; [left|done].
    + right. exists e'. split; [by right|done].
Qed.

(** X2: on a directory that passes the check, readDirectory returns the
    entries the file system lists there whose own path passes the check,
    and no others, each once, in strictly increasing order of name, and
    with the type read off the d_type of some listed entry of that name. *)
Theorem readDirectory_listing
    (os : OS) (this : FSInputAccessorImpl.t) (path : CanonPath)
    (entries : list DirEntry) :
  FSInputAccessorImpl.isAllowed this (absPath_of os this path) = true →
  nix_readDirectory os (abs (absPath_of os this path)) = Ok entries →
  ∃ res,
    outcome_of (FSInputAccessorImpl.readDirectory os this path) = Ok res
    ∧ StronglySorted string_lt res.*1
    ∧ (∀ n, n ∈ res.*1
            ↔ n ∈ name <$> entries
              ∧ FSInputAccessorImpl.isAllowed this
                  (path_push (absPath_of os this path) n) = true)
    ∧ (∀ n ty, (n, ty) ∈ res →
         ∃ e, e ∈ entries ∧ name e = n ∧ FSInputAccessorImpl.entry_type e = ty).
Proof.
  intros Hallowed Hentries.
  destruct (calls_allowed os this path Hallowed) as (_ & _ & _ & Hdir & _).
  rewrite Hdir, Hentries. eexists. split; [reflexivity|]. split; [|split].
  - eapply StronglySorted_fmap; [|apply collect_sorted; constructor]. done.
  - intros n. rewrite collect_keys, elem_of_nil. tauto.
  - intros n ty [Hin|(e & He & _ & [= -> ->])]%collect_elem_of.
    + by apply elem_of_nil in Hin.
    + by exists e.
Qed.

Lemma readDirectory_listing_witness :
  ∃ res,
    outcome_of (FSInputAccessorImpl.readDirectory Example_src.os Example_src.restricted [])
      = Ok res
    ∧ StronglySorted string_lt res.*1
    ∧ (∀ n, n ∈ res.*1
            ↔ n ∈ ["run.sh"; "link"]
              ∧ FSInputAccessorImpl.isAllowed Example_src.restricted
                  (path_push ["src"] n) = true)
    ∧ (∀ n ty, (n, ty) ∈ res →
         ∃ e, e ∈ [ {| name := "run.sh"; d_type := DT_REG |};
                     {| name := "link"; d_type := DT_LNK |} ]
              ∧ name e = n ∧ FSInputAccessorImpl.entry_type e = ty).
Proof.
  apply (readDirectory_listing Example_src.os Example_src.restricted []
           [ {| name := "run.sh"; d_type := DT_REG |};
             {| name := "link"; d_type := DT_LNK |} ]);
    reflexivity.
Defined.

(** ** The allow-list *)

Lemma isAllowed_unfold (this : FSInputAccessorImpl.t) (absPath : CanonPath) :
  FSInputAccessorImpl.isAllowed this absPath
  = isWithin absPath (FSInputAccessorImpl.root this)
    && match FSInputAccessorImpl.allowedPaths this with
       | Some allowed =>
           CanonPath_isAllowed
             (removePrefix absPath (FSInputAccessorImpl.root this)) allowed
       | None => true
       end.
Proof.
  unfold FSInputAccessorImpl.isAllowed.
  destruct (isWithin _ _); [|done]. simpl.
  destruct (FSInputAccessorImpl.allowedPaths this) as [allowed|]; [|done].
  by destruct (CanonPath_isAllowed _ _).
Qed.

Lemma allowPath_allowedPaths (this : FSInputAccessorImpl.t) (path : CanonPath) :
  FSInputAccessorImpl.allowedPaths (FSInputAccessorImpl.allowPath this path)
  = (λ allowed, {[path]} ∪ allowed) <$> FSInputAccessorImpl.allowedPaths this.
Proof.
  unfold FSInputAccessorImpl.allowPath.
  destruct (FSInputAccessorImpl.allowedPaths this) eqn:Hlist; simpl; [done|].
  by rewrite Hlist.
Qed.

(** X3: allowPath only widens access: whatever path passed isAllowed
    before still passes after any allowPath. *)
Theorem allowPath_monotone
    (this : FSInputAccessorImpl.t) (path absPath : CanonPath) :
  FSInputAccessorImpl.isAllowed this absPath = true →
  FSInputAccessorImpl.isAllowed (FSInputAccessorImpl.allowPath this path) absPath = true.
Proof.
  rewrite !isAllowed_unfold, allowPath_root, allowPath_allowedPaths.
  intros [Hwithin Hlist]%andb_true_iff. rewrite Hwithin. simpl.
  destruct (FSInputAccessorImpl.allowedPaths this) as [allowed|]; [|done]. simpl.
  apply CanonPath_isAllowed_true in Hlist as (a & Ha & Hrel).
  apply CanonPath_isAllowed_true. exists a. split; [|done].
  by apply elem_of_union_r.
Qed.

Lemma allowPath_monotone_witness :
  FSInputAccessorImpl.isAllowed
    (FSInputAccessorImpl.allowPath Example_src.restricted ["link"])
    ["src"; "run.sh"] = true.
Proof.
  apply (allowPath_monotone Example_src.restricted ["link"] ["src"; "run.sh"]).
  reflexivity.
Defined.

(** X4: allowPath keeps the root, the number and whether there is access
    control; allowing a path twice is allowing it once, and two paths may
    be allowed in either order. *)
Theorem allowPath_compose (this : FSInputAccessorImpl.t) (p q : CanonPath) :
  FSInputAccessorImpl.root (FSInputAccessorImpl.allowPath this p)
    = FSInputAccessorImpl.root this
  ∧ FSInputAccessorImpl.number (FSInputAccessorImpl.allowPath this p)
    = FSInputAccessorImpl.number this
  ∧ FSInputAccessorImpl.hasAccessControl (FSInputAccessorImpl.allowPath this p)
    = FSInputAccessorImpl.hasAccessControl this
  ∧ FSInputAccessorImpl.allowPath (FSInputAccessorImpl.allowPath this p) p
    = FSInputAccessorImpl.allowPath this p
  ∧ FSInputAccessorImpl.allowPath (FSInputAccessorImpl.allowPath this p) q
    = FSInputAccessorImpl.allowPath (FSInputAccessorImpl.allowPath this q) p.
Proof.
  unfold FSInputAccessorImpl.allowPath, FSInputAccessorImpl.hasAccessControl.
  destruct this as [n r [allowed|]]; simpl; [|done].
  repeat split.
  - by rewrite (assoc_L (∪)), (idemp_L (∪)).
  - by rewrite !(assoc_L (∪)), (comm_L (∪) {[q]}).
Qed.

(** X5: once a path is allowed, isAllowed accepts, below the root, that
    path, everything under it and each of its ancestors; allowing the
    empty path opens all of the root, and no allowPath opens anything
    outside the root. *)
Theorem allowPath_opens (this : FSInputAccessorImpl.t) (path : CanonPath) :
  (∀ q, isWithin q path = true ∨ isWithin path q = true →
        FSInputAccessorImpl.isAllowed (FSInputAccessorImpl.allowPath this path)
          (path_plus (FSInputAccessorImpl.root this) q) = true)
  ∧ (∀ absPath,
       FSInputAccessorImpl.isAllowed (FSInputAccessorImpl.allowPath this []) absPath
       = isWithin absPath (FSInputAccessorImpl.root this))
  ∧ (∀ absPath,
       isWithin absPath (FSInputAccessorImpl.root this) = false →
       FSInputAccessorImpl.isAllowed (FSInputAccessorImpl.allowPath this path) absPath
       = false).
Proof.
  split; [|split].
  - intros q Hq.
    rewrite isAllowed_unfold, allowPath_root, allowPath_allowedPaths,
      isWithin_plus, removePrefix_plus. simpl.
    destruct (FSInputAccessorImpl.allowedPaths this) as [allowed|]; [|done]. simpl.
    apply CanonPath_isAllowed_true. exists path.
    split; [apply elem_of_union_l; by apply elem_of_singleton | done].
  - intros absPath.
    rewrite isAllowed_unfold, allowPath_root, allowPath_allowedPaths.
    destruct (FSInputAccessorImpl.allowedPaths this) as [allowed|]; simpl;
      [|by rewrite andb_true_r].
    assert (CanonPath_isAllowed
              (removePrefix absPath (FSInputAccessorImpl.root this))
              ({[ [] ]} ∪ allowed) = true) as ->; [|by rewrite andb_true_r].
    apply CanonPath_isAllowed_true. exists [].
    split; [apply elem_of_union_l; by apply elem_of_singleton | by left].
  - intros absPath Houtside.
    by rewrite isAllowed_unfold, allowPath_root, Houtside.
Qed.

Lemma allowPath_opens_witness :
  FSInputAccessorImpl.isAllowed
    (FSInputAccessorImpl.allowPath Example_data.accessor ["a"; "b"])
    (path_plus ["data"] ["a"]) = true
  ∧ FSInputAccessorImpl.isAllowed
      (FSInputAccessorImpl.allowPath Example_data.accessor ["a"]) ["etc"] = false.
Proof.
  split.
  - exact (proj1 (allowPath_opens Example_data.accessor ["a"; "b"]) ["a"]
             (or_intror eq_refl)).
  - exact (proj2 (proj2 (allowPath_opens Example_data.accessor ["a"])) ["etc"]
             eq_refl).
Defined.

(** ** What the sandbox refuses *)

(** X6: an accessor whose allow-list is empty refuses every path, its own
    root included: pathExists answers false, the four other methods throw
    the forbidden error, and none of them reaches a [nix::] primitive. *)
Theorem empty_allow_list_refuses
    (os : OS) (this : FSInputAccessorImpl.t) (path : CanonPath) :
  FSInputAccessorImpl.allowedPaths this = Some ∅ →
  let resolve := [CallResolveSymlinks (path_plus (FSInputAccessorImpl.root this) path)] in
  FSInputAccessorImpl.readFile os this path
    = (resolve, Throw (Forbidden (absPath_of os this path)))
  ∧ FSInputAccessorImpl.pathExists os this path = (resolve, Ok false)
  ∧ FSInputAccessorImpl.lstat os this path
    = (resolve, Throw (Forbidden (absPath_of os this path)))
  ∧ FSInputAccessorImpl.readDirectory os this path
    = (resolve, Throw (Forbidden (absPath_of os this path)))
  ∧ FSInputAccessorImpl.readLink os this path
    = (resolve, Throw (Forbidden (absPath_of os this path))).
Proof.
  intros Hempty. apply calls_denied.
  rewrite isAllowed_unfold, Hempty.
  unfold CanonPath_isAllowed. rewrite elements_empty. simpl.
  apply andb_false_r.
Qed.

Lemma empty_allow_list_refuses_witness :
  FSInputAccessorImpl.readFile Example_data.os Example_data.accessor []
    = ([CallResolveSymlinks ["data"]], Throw (Forbidden ["data"]))
  ∧ FSInputAccessorImpl.pathExists Example_data.os Example_data.accessor []
    = ([CallResolveSymlinks ["data"]], Ok false)
  ∧ FSInputAccessorImpl.lstat Example_data.os Example_data.accessor []
    = ([CallResolveSymlinks ["data"]], Throw (Forbidden ["data"]))
  ∧ FSInputAccessorImpl.readDirectory Example_data.os Example_data.accessor []
    = ([CallResolveSymlinks ["data"]], Throw (Forbidden ["data"]))
  ∧ FSInputAccessorImpl.readLink Example_data.os Example_data.accessor []
    = ([CallResolveSymlinks ["data"]], Throw (Forbidden ["data"])).
Proof.
  exact (empty_allow_list_refuses Example_data.os Example_data.accessor [] eq_refl).
Defined.

(** X7: when the symlinks of root + path resolve to a place outside the
    root, every method refuses the path, with or without an allow-list
    and whatever the list holds: pathExists answers false, the others
    throw the forbidden error naming the resolved place, and nothing is
    read there. *)
Theorem symlink_out_of_root_refused
    (os : OS) (this : FSInputAccessorImpl.t) (path resolved : CanonPath) :
  resolveSymlinks os (path_plus (FSInputAccessorImpl.root this) path) = Ok resolved →
  isWithin resolved (FSInputAccessorImpl.root this) = false →
  let resolve := [CallResolveSymlinks (path_plus (FSInputAccessorImpl.root this) path)] in
  FSInputAccessorImpl.readFile os this path = (resolve, Throw (Forbidden resolved))
  ∧ FSInputAccessorImpl.pathExists os this path = (resolve, Ok false)
  ∧ FSInputAccessorImpl.lstat os this path = (resolve, Throw (Forbidden resolved))
  ∧ FSInputAccessorImpl.readDirectory os this path = (resolve, Throw (Forbidden resolved))
  ∧ FSInputAccessorImpl.readLink os this path = (resolve, Throw (Forbidden resolved)).
Proof.
  intros Hresolved Houtside.
  assert (absPath_of os this path = resolved) as Habs.
  { unfold absPath_of. by rewrite Hresolved. }
  rewrite <- Habs. apply calls_denied.
  by rewrite isAllowed_unfold, Habs, Houtside.
Qed.

Lemma symlink_out_of_root_refused_witness :
  FSInputAccessorImpl.readFile Example_jail.os Example_jail.accessor ["out"]
    = ([CallResolveSymlinks ["jail"; "out"]], Throw (Forbidden ["etc"; "passwd"]))
  ∧ FSInputAccessorImpl.pathExists Example_jail.os Example_jail.accessor ["out"]
    = ([CallResolveSymlinks ["jail"; "out"]], Ok false)
  ∧ FSInputAccessorImpl.lstat Example_jail.os Example_jail.accessor ["out"]
    = ([CallResolveSymlinks ["jail"; "out"]], Throw (Forbidden ["etc"; "passwd"]))
  ∧ FSInputAccessorImpl.readDirectory Example_jail.os Example_jail.accessor ["out"]
    = ([CallResolveSymlinks ["jail"; "out"]], Throw (Forbidden ["etc"; "passwd"]))
  ∧ FSInputAccessorImpl.readLink Example_jail.os Example_jail.accessor ["out"]
    = ([CallResolveSymlinks ["jail"; "out"]], Throw (Forbidden ["etc"; "passwd"])).
Proof.
  exact (symlink_out_of_root_refused Example_jail.os Example_jail.accessor
           ["out"] ["etc"; "passwd"] eq_refl eq_refl).
Defined.

(** ** What a successful probe promises *)

(** X8: when pathExists answers true, the path passed the access check
    and the file system reported it present, so on that path readFile,
    lstat, readDirectory and readLink are not refused: each returns what
    its file-system primitive returns at the resolved path. *)
Theorem pathExists_true_then_readable
    (os : OS) (this : FSInputAccessorImpl.t) (path : CanonPath) :
  outcome_of (FSInputAccessorImpl.pathExists os this path) = Ok true →
  let at_path := abs (absPath_of os this path) in
  FSInputAccessorImpl.isAllowed this (absPath_of os this path) = true
  ∧ nix_pathExists os at_path = Ok true
  ∧ outcome_of (FSInputAccessorImpl.readFile os this path) = nix_readFile os at_path
  ∧ outcome_of (FSInputAccessorImpl.lstat os this path)
    = FSInputAccessorImpl.stat_of_mode <$> nix_lstat os at_path
  ∧ outcome_of (FSInputAccessorImpl.readLink os this path) = nix_readLink os at_path
  ∧ (∀ e, outcome_of (FSInputAccessorImpl.readDirectory os this path) = Throw e →
          nix_readDirectory os at_path = Throw e).
Proof.
  intros Hexists at_path.
  destruct (FSInputAccessorImpl.isAllowed this (absPath_of os this path)) eqn:Hallowed.
  - destruct (calls_allowed os this path Hallowed) as (Hfile & Hex & Hstat & Hdir & Hlink).
    fold at_path in Hfile, Hex, Hstat, Hdir, Hlink.
    rewrite Hex in Hexists. rewrite Hfile, Hstat, Hdir, Hlink.
    unfold outcome_of in *. cbn [snd] in *.
    repeat split; try done.
    intros e. unfold fmap, result_fmap, result_map.
    destruct (nix_readDirectory os at_path) as [entries|e']; simpl;
      [discriminate | by intros [= ->]].
  - destruct (calls_denied os this path Hallowed) as (_ & Hex & _).
    by rewrite Hex in Hexists.
Qed.

Lemma pathExists_true_then_readable_witness :
  FSInputAccessorImpl.isAllowed Example_src.restricted
    (absPath_of Example_src.os Example_src.restricted ["run.sh"]) = true
  ∧ nix_pathExists Example_src.os "/src/run.sh" = Ok true
  ∧ outcome_of (FSInputAccessorImpl.readFile Example_src.os Example_src.restricted ["run.sh"])
    = Ok "echo hi"
  ∧ outcome_of (FSInputAccessorImpl.lstat Example_src.os Example_src.restricted ["run.sh"])
    = Ok {| type := tRegular; isExecutable := true |}
  ∧ outcome_of (FSInputAccessorImpl.readLink Example_src.os Example_src.restricted ["run.sh"])
    = nix_readLink Example_src.os "/src/run.sh"
  ∧ (∀ e, outcome_of (FSInputAccessorImpl.readDirectory Example_src.os
                        Example_src.restricted ["run.sh"]) = Throw e →
          nix_readDirectory Example_src.os "/src/run.sh" = Throw e).
Proof.
  exact (pathExists_true_then_readable Example_src.os Example_src.restricted
           ["run.sh"] eq_refl).
Defined.

(** ** The stat of the sandboxed accessor *)

(** X9: a Stat that lstat returns marks as executable only a regular
    file whose owner-execute bit is set; its type is the one the
    file-type bits of st_mode name, whatever order the tests are made
    in, and tMisc exactly when they name none of the three. *)
Theorem lstat_stat_invariant
    (os : OS) (this : FSInputAccessorImpl.t) (path : CanonPath) (st : Stat) :
  outcome_of (FSInputAccessorImpl.lstat os this path) = Ok st →
  ∃ mode,
    nix_lstat os (abs (absPath_of os this path)) = Ok mode
    ∧ (isExecutable st = true
       ↔ type st = tRegular ∧ N.land mode S_IXUSR ≠ 0%N)
    ∧ (type st = tRegular ↔ N.land mode S_IFMT = S_IFREG)
    ∧ (type st = tDirectory ↔ N.land mode S_IFMT = S_IFDIR)
    ∧ (type st = tSymlink ↔ N.land mode S_IFMT = S_IFLNK)
    ∧ (type st = tMisc
       ↔ N.land mode S_IFMT ≠ S_IFREG ∧ N.land mode S_IFMT ≠ S_IFDIR
         ∧ N.land mode S_IFMT ≠ S_IFLNK).
Proof.
  intros Hst.
  destruct (FSInputAccessorImpl.isAllowed this (absPath_of os this path)) eqn:Hallowed.
  2: { destruct (calls_denied os this path Hallowed) as (_ & _ & Hstat & _).
       by rewrite Hstat in Hst. }
  destruct (calls_allowed os this path Hallowed) as (_ & _ & Hstat & _).
  rewrite Hstat in Hst. unfold outcome_of in Hst. cbn [snd] in Hst.
  destruct (nix_lstat os _) as [mode|e]; [|done].
  injection Hst as <-. exists mode. split; [done|].
  unfold FSInputAccessorImpl.stat_of_mode, S_ISREG, S_ISDIR, S_ISLNK. cbn [type isExecutable].
  destruct (N.eqb_spec (N.land mode S_IFMT) S_IFREG) as [Hreg|Hreg];
    destruct (N.eqb_spec (N.land mode S_IFMT) S_IFDIR) as [Hdir|Hdir];
    destruct (N.eqb_spec (N.land mode S_IFMT) S_IFLNK) as [Hlnk|Hlnk];
    destruct (N.eqb_spec (N.land mode S_IXUSR) 0) as [Hx|Hx];
    try (rewrite Hreg in Hdir; discriminate);
    try (rewrite Hreg in Hlnk; discriminate);
    try (rewrite Hdir in Hlnk; discriminate);
    cbn; intuition (try discriminate; try congruence).
Qed.

Lemma lstat_stat_invariant_witness :
  ∃ mode,
    nix_lstat Example_src.os
      (abs (absPath_of Example_src.os Example_src.accessor ["run.sh"])) = Ok mode
    ∧ (true = true ↔ tRegular = tRegular ∧ N.land mode S_IXUSR ≠ 0%N)
    ∧ (tRegular = tRegular ↔ N.land mode S_IFMT = S_IFREG)
    ∧ (tRegular = tDirectory ↔ N.land mode S_IFMT = S_IFDIR)
    ∧ (tRegular = tSymlink ↔ N.land mode S_IFMT = S_IFLNK)
    ∧ (tRegular = tMisc
       ↔ N.land mode S_IFMT ≠ S_IFREG ∧ N.land mode S_IFMT ≠ S_IFDIR
         ∧ N.land mode S_IFMT ≠ S_IFLNK).
Proof.
  exact (lstat_stat_invariant Example_src.os Example_src.accessor ["run.sh"]
           {| type := tRegular; isExecutable := true |} eq_refl).
Defined.

(** ** The in-memory accessor *)

(** X10: addFile never overwrites.  After addFile(path, contents) the
    accessor reads at path what it held there before, or contents if it
    held nothing; every other path reads and probes as before; the path
    exists; and a second addFile of the same path changes nothing. *)
Theorem addFile_first_wins
    (this : MemoryInputAccessorImpl.t) (path : CanonPath) (contents : string) :
  let this' := MemoryInputAccessorImpl.addFile this path contents in
  MemoryInputAccessorImpl.readFile this' path
    = Ok (default contents (MemoryInputAccessorImpl.files this !! path))
  ∧ MemoryInputAccessorImpl.pathExists this' path = Ok true
  ∧ (∀ other, other ≠ path →
       MemoryInputAccessorImpl.readFile this' other
         = MemoryInputAccessorImpl.readFile this other
       ∧ MemoryInputAccessorImpl.pathExists this' other
         = MemoryInputAccessorImpl.pathExists this other)
  ∧ (∀ contents', MemoryInputAccessorImpl.addFile this' path contents' = this')
  ∧ MemoryInputAccessorImpl.number this' = MemoryInputAccessorImpl.number this.
Proof.
  intros this'. unfold this', MemoryInputAccessorImpl.addFile,
    MemoryInputAccessorImpl.readFile, MemoryInputAccessorImpl.pathExists.
  destruct (MemoryInputAccessorImpl.files this !! path) as [old|] eqn:Hold.
  - rewrite Hold. repeat split; intros; rewrite ?Hold; done.
  - cbn. rewrite lookup_insert_eq.
    repeat split; intros; cbn;
      rewrite ?lookup_insert_eq, ?lookup_insert_ne by done; done.
Qed.

Lemma addFile_first_wins_witness :
  MemoryInputAccessorImpl.readFile
    (MemoryInputAccessorImpl.addFile memory_foo ["foo.txt"] "bye") ["bar.txt"]
  = MemoryInputAccessorImpl.readFile memory_foo ["bar.txt"]
  ∧ MemoryInputAccessorImpl.pathExists
      (MemoryInputAccessorImpl.addFile memory_foo ["foo.txt"] "bye") ["bar.txt"]
    = MemoryInputAccessorImpl.pathExists memory_foo ["bar.txt"].
Proof.
  apply (proj1 (proj2 (proj2 (addFile_first_wins memory_foo ["foo.txt"] "bye")))).
  discriminate.
Defined.

(** X11: on the in-memory accessor pathExists never throws and tells
    exactly whether readFile succeeds; where it answers false readFile
    throws the does-not-exist error naming the path, and a newly made
    accessor holds no file at all. *)
Theorem memory_pathExists_readFile
    (this : MemoryInputAccessorImpl.t) (path : CanonPath) :
  match MemoryInputAccessorImpl.readFile this path with
  | Ok contents =>
      MemoryInputAccessorImpl.pathExists this path = Ok true
      ∧ MemoryInputAccessorImpl.files this !! path = Some contents
  | Throw e =>
      MemoryInputAccessorImpl.pathExists this path = Ok false
      ∧ e = Error "file '%s' does not exist" [abs path]
  end
  ∧ ∀ nextNumber,
      MemoryInputAccessorImpl.readFile (makeMemoryInputAccessor nextNumber).1 path
      = Throw (Error "file '%s' does not exist" [abs path]).
Proof.
  unfold MemoryInputAccessorImpl.readFile, MemoryInputAccessorImpl.pathExists.
  split.
  - by destruct (MemoryInputAccessorImpl.files this !! path).
  - intros nextNumber. cbn. by rewrite lookup_empty.
Qed.

(** ** Accessor numbers *)

Lemma after_accessors_sum (k : nat) (nextNumber : N) :
  after_accessors (S k) nextNumber = ((nextNumber + N.of_nat (S k)) mod 2 ^ 64)%N.
Proof.
  unfold after_accessors. induction k as [|k IH].
  - cbn. unfold next_number. f_equal.
  - change (Nat.iter (S (S k)) next_number nextNumber)
      with (next_number (Nat.iter (S k) next_number nextNumber)).
    rewrite IH. unfold next_number.
    rewrite N.Div0.add_mod_idemp_l. f_equal. lia.
Qed.

(** X12: both constructors give the new accessor the incremented counter
    and hand that counter on; the accessors made one after another from
    any counter value carry pairwise different numbers as long as fewer
    than 2^64 were made in between, the width of the counter. *)
Theorem accessor_numbers_distinct (nextNumber : N) (i j : nat) :
  (∀ root allowed,
     FSInputAccessorImpl.number (makeFSInputAccessor nextNumber root allowed).1
       = after_accessors 1 nextNumber
     ∧ (makeFSInputAccessor nextNumber root allowed).2 = after_accessors 1 nextNumber)
  ∧ MemoryInputAccessorImpl.number (makeMemoryInputAccessor nextNumber).1
    = after_accessors 1 nextNumber
  ∧ (makeMemoryInputAccessor nextNumber).2 = after_accessors 1 nextNumber
  ∧ (i < j → (N.of_nat (j - i) < 2 ^ 64)%N →
     after_accessors (S i) nextNumber ≠ after_accessors (S j) nextNumber).
Proof.
  repeat split.
  intros Hij Hfew. rewrite !after_accessors_sum. intros Heq.
  set (M := (2 ^ 64)%N) in *.
  assert (0 < M)%N as HM by (unfold M; lia).
  pose proof (N.div_mod (nextNumber + N.of_nat (S i)) M) as Hi.
  pose proof (N.div_mod (nextNumber + N.of_nat (S j)) M) as Hj.
  rewrite <- Heq in Hj.
  set (r := ((nextNumber + N.of_nat (S i)) mod M)%N) in *.
  set (qi := ((nextNumber + N.of_nat (S i)) / M)%N) in *.
  set (qj := ((nextNumber + N.of_nat (S j)) / M)%N) in *.
  clearbody M r qi qj.
  assert (M ≠ 0)%N as HM' by lia. specialize (Hi HM'). specialize (Hj HM').
  assert (N.of_nat (S j) = N.of_nat (S i) + N.of_nat (j - i))%N as Hsplit by lia.
  assert (qi < qj)%N by nia.
  nia.
Qed.

Lemma accessor_numbers_distinct_witness :
  after_accessors 1 0 ≠ after_accessors 3 0.
Proof.
  apply (proj2 (proj2 (proj2 (accessor_numbers_distinct 0 0 2)))).
  - lia.
  - reflexivity.
Defined.

(** ** Source paths *)

(** X13: the base name of a source path at the root of its accessor is
    "source" and its parent fails the assertion; everywhere else the
    parent exists, keeps the accessor, and gives the path back when the
    base name is appended to it. *)
Theorem SourcePath_parent_baseName {T : Type} (this : SourcePath T) :
  (sp_path this = [] →
     SourcePath_baseName this = "source" ∧ SourcePath_parent this = None)
  ∧ (sp_path this ≠ [] →
     ∃ parent,
       SourcePath_parent this = Some parent
       ∧ sp_accessor parent = sp_accessor this
       ∧ path_push (sp_path parent) (SourcePath_baseName this) = sp_path this).
Proof.
  unfold SourcePath_baseName, SourcePath_parent, CanonPath_baseName, CanonPath_parent.
  destruct this as [acc p]. cbn [sp_path sp_accessor]. split.
  - by intros ->.
  - intros Hp. destruct (exists_last Hp) as (p' & c & ->).
    rewrite last_snoc, removelast_last.
    destruct (p' ++ [c]) eqn:Hsnoc; [by destruct p'|].
    eexists. split; [reflexivity|]. by split.
Qed.

Lemma SourcePath_parent_baseName_witness :
  ∃ parent,
    SourcePath_parent {| sp_accessor := memory_foo; sp_path := ["dir"; "foo.txt"] |}
      = Some parent
    ∧ sp_accessor parent = memory_foo
    ∧ path_push (sp_path parent)
        (SourcePath_baseName
           {| sp_accessor := memory_foo; sp_path := ["dir"; "foo.txt"] |})
      = ["dir"; "foo.txt"].
Proof.
  apply (proj2 (SourcePath_parent_baseName
                  {| sp_accessor := memory_foo; sp_path := ["dir"; "foo.txt"] |})).
  discriminate.
Defined.


(** ** What dumpPath writes *)

Lemma sink_blind_ret {A} (a : A) : sink_blind (ret a).
Proof. intros sink. unfold ret. cbn. by rewrite string_app_nil_r. Qed.

Lemma sink_blind_throw {A} (e : Exn) : sink_blind (throw (A := A) e).
Proof. intros sink. unfold throw. cbn. by rewrite string_app_nil_r. Qed.

Lemma sink_blind_out_of_fuel {A} : sink_blind (out_of_fuel (A := A)).
Proof. intros sink. unfold out_of_fuel. cbn. by rewrite string_app_nil_r. Qed.

Lemma sink_blind_lift {A} (r : result A) : sink_blind (lift r).
Proof. destruct r; [apply sink_blind_ret | apply sink_blind_throw]. Qed.

Lemma sink_blind_put_string (s : string) : sink_blind (put_string s).
Proof. intros sink. reflexivity. Qed.

Lemma sink_blind_put_num (n : N) : sink_blind (put_num n).
Proof. intros sink. reflexivity. Qed.

Lemma sink_blind_put_raw (s : string) : sink_blind (put_raw s).
Proof. intros sink. reflexivity. Qed.

Lemma sink_blind_writePadding (len : N) : sink_blind (writePadding len).
Proof. intros sink. reflexivity. Qed.

Lemma sink_blind_bind {A B} (m : W A) (k : A → W B) :
  sink_blind m → (∀ a, sink_blind (k a)) → sink_blind (m ≫= k).
Proof.
  intros Hm Hk sink. unfold mbind, W_bind, bind. rewrite (Hm sink).
  destruct (m "") as [w [a| |]]; cbn [fst snd]; try reflexivity.
  rewrite (Hk a (sink +:+ w)), (Hk a w). cbn [fst snd].
  by rewrite string_app_assoc.
Qed.

Lemma sink_blind_for_each {A} (l : list A) (body : A → W unit) :
  (∀ x, sink_blind (body x)) → sink_blind (for_each l body).
Proof.
  intros Hbody. induction l as [|x l IH]; simpl.
  - apply sink_blind_ret.
  - by apply sink_blind_bind.
Qed.

Create HintDb sink_blind.
#[local] Hint Resolve sink_blind_ret sink_blind_throw sink_blind_out_of_fuel
  sink_blind_lift sink_blind_put_string sink_blind_put_num sink_blind_put_raw
  sink_blind_writePadding : sink_blind.

(** Step over a statement that does not look at the sink. *)
Ltac sink_blind_step :=
  apply sink_blind_bind; [solve [auto with sink_blind]|]; intros ?.

Lemma sink_blind_dump {T : Type} `{InputAccessor T} (acc : T)
    (filter : string → bool) (fuel : nat) (path : CanonPath) :
  sink_blind (dump acc filter fuel path).
Proof.
  revert path. induction fuel as [|fuel IH]; intros path.
  { apply sink_blind_out_of_fuel. }
  cbn [dump]; unfold dump_node. do 2 sink_blind_step.
  apply sink_blind_bind; [|auto with sink_blind].
  destruct (type a).
  - do 2 sink_blind_step. apply sink_blind_bind.
    + destruct (isExecutable a); [|auto with sink_blind].
      sink_blind_step. auto with sink_blind.
    + intros _. unfold dumpContents. do 4 sink_blind_step. auto with sink_blind.
  - do 4 sink_blind_step. auto with sink_blind.
  - do 3 sink_blind_step.
    apply sink_blind_for_each. intros i.
    destruct (filter _); [|auto with sink_blind].
    do 5 sink_blind_step.
    apply sink_blind_bind; [apply IH|auto with sink_blind].
  - apply sink_blind_throw.
Qed.

(** X14: dumpPath only appends, and what it appends and how it ends do
    not depend on what the sink holds already: the walk into any sink is
    the walk into an empty sink, put after the sink. *)
Theorem dumpPath_sink_blind {T : Type} `{InputAccessor T} (acc : T)
    (filter : string → bool) (fuel : nat) (path : CanonPath) (sink : Sink) :
  dumpPath acc filter fuel path sink
  = (sink +:+ (dumpPath acc filter fuel path "").1,
     (dumpPath acc filter fuel path "").2).
Proof.
  revert sink. change (sink_blind (dumpPath acc filter fuel path)).
  unfold dumpPath. sink_blind_step. apply sink_blind_dump.
Qed.

(** ** Alignment *)

Lemma length_zeros (n : nat) : String.length (zeros n) = n.
Proof. induction n as [|n IH]; simpl; [done | by rewrite IH]. Qed.

(** The padding after [len] bytes brings them to a multiple of 8. *)
Lemma padded_length (s : string) :
  (String.length s + String.length (padding (size s))) mod 8 = 0.
Proof.
  unfold padding, size. case_decide as Hmod.
  - simpl. rewrite Nat.add_0_r.
    apply (f_equal N.to_nat) in Hmod.
    rewrite N2Nat.inj_mod, Nat2N.id in Hmod. exact Hmod.
  - rewrite length_zeros.
    assert (N.to_nat (8 - N.of_nat (String.length s) mod 8)
            = 8 - String.length s mod 8) as ->.
    { rewrite N2Nat.inj_sub, N2Nat.inj_mod, Nat2N.id. reflexivity. }
    pose proof (Nat.mod_upper_bound (String.length s) 8).
    pose proof (Nat.div_mod_eq (String.length s) 8).
    replace (String.length s + (8 - String.length s mod 8))
      with ((String.length s / 8 + 1) * 8) by lia.
    apply Nat.Div0.mod_mul.
Qed.

Lemma mod8_add (a b : nat) : a mod 8 = 0 → b mod 8 = 0 → (a + b) mod 8 = 0.
Proof. intros Ha Hb. by rewrite Nat.Div0.add_mod, Ha, Hb. Qed.

Lemma aligned8_writeString (sink s : string) :
  aligned8 sink → aligned8 (sink +:+ writeString s).
Proof.
  unfold aligned8, writeString. intros Hsink.
  rewrite !string_length_app.
  change (String.length (u64le (size s))) with 8.
  apply mod8_add; [done|]. apply mod8_add; [done|]. apply padded_length.
Qed.

Lemma keeps_aligned_ret {A} (a : A) : keeps_aligned (ret a).
Proof. by intros sink. Qed.

Lemma keeps_aligned_throw {A} (e : Exn) : keeps_aligned (throw (A := A) e).
Proof. by intros sink. Qed.

Lemma keeps_aligned_lift {A} (r : result A) : keeps_aligned (lift r).
Proof. destruct r; [apply keeps_aligned_ret | apply keeps_aligned_throw]. Qed.

Lemma keeps_aligned_put_string (s : string) : keeps_aligned (put_string s).
Proof. intros sink. apply aligned8_writeString. Qed.

Lemma keeps_aligned_put_num (n : N) : keeps_aligned (put_num n).
Proof.
  intros sink. unfold aligned8, put_num. cbn [fst]. intros Hsink.
  rewrite string_length_app. change (String.length (u64le n)) with 8.
  by apply mod8_add.
Qed.

(** The bytes of a file and their padding, written in one go. *)
Lemma keeps_aligned_contents (s : string) :
  keeps_aligned (put_raw s ;; writePadding (size s)).
Proof.
  intros sink. unfold aligned8, mbind, W_bind, bind, put_raw, writePadding.
  cbn [fst]. intros Hsink.
  rewrite !string_length_app, <- Nat.add_assoc.
  apply mod8_add; [done|]. apply padded_length.
Qed.

Lemma keeps_aligned_bind {A B} (m : W A) (k : A → W B) :
  keeps_aligned m → (∀ a, keeps_aligned (k a)) → keeps_aligned (m ≫= k).
Proof.
  intros Hm Hk sink Hsink. unfold mbind, W_bind, bind.
  specialize (Hm sink Hsink).
  destruct (m sink) as [sink' [a| |]]; cbn [fst] in *; [|done|done].
  by apply Hk.
Qed.

Lemma keeps_aligned_for_each {A} (l : list A) (body : A → W unit) :
  (∀ x, keeps_aligned (body x)) → keeps_aligned (for_each l body).
Proof.
  intros Hbody. induction l as [|x l IH]; simpl.
  - apply keeps_aligned_ret.
  - by apply keeps_aligned_bind.
Qed.

Create HintDb aligned.
#[local] Hint Resolve keeps_aligned_ret keeps_aligned_throw keeps_aligned_lift
  keeps_aligned_put_string keeps_aligned_put_num keeps_aligned_contents : aligned.

(** Step over a statement that keeps the sink aligned. *)
Ltac aligned_step :=
  apply keeps_aligned_bind; [solve [auto with aligned]|]; intros ?.

Lemma keeps_aligned_dump {T : Type} `{InputAccessor T} (acc : T)
    (filter : string → bool) (fuel : nat) (path : CanonPath) :
  keeps_aligned (dump acc filter fuel path).
Proof.
  revert path. induction fuel as [|fuel IH]; intros path.
  { by intros sink. }
  cbn [dump]; unfold dump_node. do 2 aligned_step.
  apply keeps_aligned_bind; [|auto with aligned].
  destruct (type a).
  - do 2 aligned_step. apply keeps_aligned_bind.
    + destruct (isExecutable a); [|auto with aligned].
      aligned_step. auto with aligned.
    + intros _. unfold dumpContents. do 3 aligned_step. auto with aligned.
  - do 4 aligned_step. auto with aligned.
  - do 3 aligned_step.
    apply keeps_aligned_for_each. intros i.
    destruct (filter _); [|auto with aligned].
    do 5 aligned_step.
    apply keeps_aligned_bind; [apply IH|auto with aligned].
  - apply keeps_aligned_throw.
Qed.

(** X15: whatever the tree, the filter and the way the walk ends (done,
    an exception, or out of fuel), the number of bytes dumpPath has
    written is a multiple of 8: the bytes of a file are never left
    without their padding. *)
Theorem dumpPath_aligned {T : Type} `{InputAccessor T} (acc : T)
    (filter : string → bool) (fuel : nat) (path : CanonPath) :
  String.length (dumpPath acc filter fuel path "").1 mod 8 = 0.
Proof.
  assert (keeps_aligned (dumpPath acc filter fuel path)) as Hkeeps.
  { unfold dumpPath. aligned_step. apply keeps_aligned_dump. }
  by apply (Hkeeps "").
Qed.

(** ** Walks that end *)

Lemma always_finished_ret {A} (a : A) : always_finished (ret a).
Proof. by intros sink. Qed.

Lemma always_finished_throw {A} (e : Exn) : always_finished (throw (A := A) e).
Proof. by intros sink. Qed.

Lemma always_finished_lift {A} (r : result A) : always_finished (lift r).
Proof. by destruct r. Qed.

Lemma always_finished_put_string (s : string) : always_finished (put_string s).
Proof. by intros sink. Qed.

Lemma always_finished_bind {A B} (m : W A) (k : A → W B) :
  always_finished m → (∀ a, always_finished (k a)) → always_finished (m ≫= k).
Proof.
  intros Hm Hk sink. unfold mbind, W_bind, bind. specialize (Hm sink).
  destruct (m sink) as [sink' [a| |]]; [apply Hk|done|done].
Qed.

Lemma always_finished_lift_bind {A B} (r : result A) (k : A → W B) :
  (∀ a, r = Ok a → always_finished (k a)) → always_finished (lift r ≫= k).
Proof.
  intros Hk sink. destruct r as [a|e]; [|done].
  rewrite bind_lift_Ok. by apply Hk.
Qed.

Lemma always_finished_for_each {A} (l : list A) (body : A → W unit) :
  (∀ x, x ∈ l → always_finished (body x)) → always_finished (for_each l body).
Proof.
  induction l as [|x l IH]; intros Hbody; simpl.
  - apply always_finished_ret.
  - apply always_finished_bind; [apply Hbody; left|].
    intros _. apply IH. intros y Hy. apply Hbody. by right.
Qed.

Lemma always_finished_dumpContents {T : Type} `{InputAccessor T} (acc : T)
    (path : CanonPath) :
  always_finished (dumpContents acc path).
Proof.
  unfold dumpContents. apply always_finished_lift_bind. intros s _.
  by intros sink.
Qed.

Create HintDb finished.
#[local] Hint Resolve always_finished_ret always_finished_throw always_finished_lift
  always_finished_put_string always_finished_dumpContents : finished.

(** Step over a statement that always ends. *)
Ltac finishes_step :=
  apply always_finished_bind; [solve [auto with finished]|]; intros ?.

Section termination.
Context {T : Type} `{InputAccessor T}.
Variable acc : T.
Variable filter : string → bool.
Variable height : CanonPath → nat.
Hypothesis children_lower :
  ∀ path st entries n,
    lstat acc path = Ok st → type st = tDirectory →
    readDirectory acc path = Ok entries → n ∈ entries.*1 →
    filter (abs (path_push path n)) = true →
    height (path_push path n) < height path.

Lemma dump_finishes (fuel : nat) (path : CanonPath) :
  height path < fuel → always_finished (dump acc filter fuel path).
Proof.
  revert path. induction fuel as [|fuel IH]; intros path Hfuel; [lia|].
  cbn [dump]; unfold dump_node.
  apply always_finished_lift_bind. intros st Hst.
  finishes_step. apply always_finished_bind; [|auto with finished].
  destruct (type st) eqn:Htype.
  - do 2 finishes_step. apply always_finished_bind; [|auto with finished].
    destruct (isExecutable st); [|auto with finished].
    finishes_step. auto with finished.
  - do 3 finishes_step. apply always_finished_lift_bind. auto with finished.
  - do 2 finishes_step.
    apply always_finished_lift_bind. intros entries Hentries.
    apply always_finished_for_each. intros i [Hdiag Hin]%unhacked_of_elem_of.
    destruct (filter _) eqn:Hkept; [|auto with finished].
    do 5 finishes_step.
    apply always_finished_bind; [|auto with finished].
    apply IH. rewrite Hdiag.
    pose proof (children_lower path st entries i.1 Hst Htype Hentries Hin Hkept).
    lia.
  - apply always_finished_throw.
Qed.

(** X16: on a tree of finite depth the walk ends.  If some measure of
    paths goes down from every directory to each of its listed entries
    that the filter accepts, then dumpPath with any depth bound above the
    measure of its start ends with a result or an exception, and a
    larger bound gives the same sink and the same end. *)
Theorem dumpPath_terminates (fuel : nat) (path : CanonPath) (sink : Sink) :
  height path < fuel →
  finished (dumpPath acc filter fuel path sink)
  ∧ ∀ extra,
      dumpPath acc filter (extra + fuel) path sink = dumpPath acc filter fuel path sink.
Proof.
  intros Hfuel. split.
  - apply always_finished_bind; [auto with finished|].
    intros _. by apply dump_finishes.
  - intros extra. unfold dumpPath. same_step.
    apply dump_enough_fuel. by apply dump_finishes.
Qed.

End termination.

(** In [Example_src] every path resolves to itself below [/src]. *)
Lemma Example_src_absPath_of (path : CanonPath) :
  absPath_of Example_src.os Example_src.accessor path = "src" :: path.
Proof.
  unfold absPath_of. cbn. unfold Example_src.no_such_file.
  destruct (decide _); [done|]. by destruct (bool_decide _).
Qed.

(** In [Example_src] the only directory the accessor shows is its root. *)
Lemma Example_src_no_subdirectory (c : string) (rest : CanonPath) (st : Stat) :
  lstat (InputAccessor := FS_accessor Example_src.os) Example_src.accessor (c :: rest)
    = Ok st →
  type st ≠ tDirectory.
Proof.
  cbn [lstat FS_accessor].
  destruct (FSInputAccessorImpl.isAllowed Example_src.accessor
              (absPath_of Example_src.os Example_src.accessor (c :: rest)))
    eqn:Hallowed.
  2: { destruct (calls_denied _ _ _ Hallowed) as (_ & _ & -> & _). done. }
  destruct (calls_allowed _ _ _ Hallowed) as (_ & _ & -> & _).
  rewrite Example_src_absPath_of. unfold outcome_of. cbn [snd].
  unfold Example_src.os, nix_lstat.
  repeat case_decide; try (intros [= <-]; by vm_compute); done.
Qed.

Lemma dumpPath_terminates_witness :
  finished (dumpPath (H := FS_accessor Example_src.os) Example_src.accessor
              Example_src.accept_all 2 [] "")
  ∧ ∀ extra,
      dumpPath (H := FS_accessor Example_src.os) Example_src.accessor
        Example_src.accept_all (extra + 2) [] ""
      = dumpPath (H := FS_accessor Example_src.os) Example_src.accessor
          Example_src.accept_all 2 [] "".
Proof.
  apply (dumpPath_terminates (H := FS_accessor Example_src.os) Example_src.accessor
           Example_src.accept_all (λ path, 1 - length path)).
  - intros [|c rest] st entries n Hst Hdir _ _ _.
    + cbn. lia.
    + by destruct (Example_src_no_subdirectory c rest st Hst).
  - cbn. lia.
Defined.


(** ** Entries the filter rejects *)

Lemma StronglySorted_filter {A} (R : relation A) (P : A → Prop)
    `{∀ x, Decision (P x)} (l : list A) :
  StronglySorted R l → StronglySorted R (filter P l).
Proof.
  induction 1 as [|x l Hl IH Hall]; [constructor|].
  rewrite filter_cons. destruct (decide (P x)); [|done].
  constructor; [done|].
  apply Forall_forall. intros y [_ Hy]%list_elem_of_filter.
  by eapply Forall_forall in Hall.
Qed.

Lemma for_each_filter_kept {A} (P : A → Prop) `{∀ x, Decision (P x)}
    (l : list A) (body : A → W unit) (sink : Sink) :
  (∀ x, ¬ P x → body x = ret tt) →
  for_each l body sink = for_each (filter P l) body sink.
Proof.
  intros Hskip. revert sink. induction l as [|x l IH]; intros sink; [done|].
  rewrite filter_cons. destruct (decide (P x)) as [HP|HP]; simpl.
  - apply bind_ext; [done|]. intros _ sink'. apply IH.
  - rewrite (Hskip x HP). apply IH.
Qed.

(** The entries of [unhacked] that the filter accepts depend on the
    accepted names alone. *)
Lemma unhacked_of_kept (keep : string → bool) (path : CanonPath)
    (entries1 entries2 : DirEntries) :
  (∀ n, keep (abs (path_push path n)) = true →
        (n ∈ entries1.*1 ↔ n ∈ entries2.*1)) →
  filter (λ i, keep (abs (path_push path i.1)) = true) (unhacked_of entries1)
  = filter (λ i, keep (abs (path_push path i.1)) = true) (unhacked_of entries2).
Proof.
  intros Hnames.
  apply (StronglySorted_unique_strong key_lt);
    try (apply StronglySorted_filter, unhacked_of_sorted).
  - intros x1 x2 _ _ H12 H21. by destruct (string_lt_asym _ _ H12).
  - apply NoDup_Permutation;
      try (apply NoDup_filter, key_lt_sorted_NoDup, unhacked_of_sorted).
    intros x. rewrite !list_elem_of_filter, !unhacked_of_elem_of.
    split; intros (Hkept & Hdiag & Hin); (split; [done|split; [done|]]);
      by apply (Hnames _ Hkept).
Qed.

Section no_trace.
Context {T1 T2 : Type} `{InputAccessor T1} `{InputAccessor T2}.
Variables (acc1 : T1) (acc2 : T2).
Variable keep : string → bool.
Hypothesis kept_lstat : ∀ path, lstat acc1 path = lstat acc2 path.
Hypothesis kept_readFile : ∀ path, readFile acc1 path = readFile acc2 path.
Hypothesis kept_readLink : ∀ path, readLink acc1 path = readLink acc2 path.
Hypothesis kept_readDirectory :
  ∀ path,
    same_kept_listing keep path (readDirectory acc1 path) (readDirectory acc2 path).

Lemma dump_kept_agree (fuel : nat) (path : CanonPath) (sink : Sink) :
  dump acc1 keep fuel path sink = dump acc2 keep fuel path sink.
Proof.
  revert path sink. induction fuel as [|fuel IH]; intros path sink; [done|].
  cbn [dump]; unfold dump_node.
  apply bind_ext; [by rewrite kept_lstat|]. intros st sink1.
  same_step. apply bind_ext; [|done].
  destruct (type st).
  - do 3 same_step. unfold dumpContents. by rewrite kept_readFile.
  - do 3 same_step. by rewrite kept_readLink.
  - do 2 same_step.
    pose proof (kept_readDirectory path) as Hdir. unfold same_kept_listing in Hdir.
    destruct (readDirectory acc1 path) as [entries1|e1],
      (readDirectory acc2 path) as [entries2|e2]; try done.
    + rewrite !bind_lift_Ok.
      rewrite (for_each_filter_kept (λ i, keep (abs (path_push path i.1)) = true)
                 (unhacked_of entries1)),
        (for_each_filter_kept (λ i, keep (abs (path_push path i.1)) = true)
           (unhacked_of entries2)).
      * rewrite (unhacked_of_kept keep path entries1 entries2 Hdir).
        apply for_each_ext. intros i _ sink2.
        destruct (keep _); [|done].
        do 5 same_step. apply bind_ext; [apply IH | done].
      * intros i Hi. by destruct (keep _).
      * intros i Hi. by destruct (keep _).
    + by subst.
  - done.
Qed.


End no_trace.

(** The accessor of [Example_src] lists [/src] the same up to [link]
    whether or not the file system lists [link]. *)
Lemma Example_src_pruned_listing (path : CanonPath) :
  same_kept_listing Example_src_pruned.reject_link path
    (readDirectory (InputAccessor := FS_accessor Example_src.os)
       Example_src.accessor path)
    (readDirectory (InputAccessor := FS_accessor Example_src_pruned.os)
       Example_src.accessor path).
Proof.
  cbn [readDirectory FS_accessor].
  destruct (FSInputAccessorImpl.isAllowed Example_src.accessor
              (absPath_of Example_src.os Example_src.accessor path)) eqn:Hallowed.
  2: { destruct (calls_denied Example_src.os _ _ Hallowed) as (_ & _ & _ & -> & _).
       destruct (calls_denied Example_src_pruned.os _ _ Hallowed) as (_ & _ & _ & -> & _).
       reflexivity. }
  destruct (calls_allowed Example_src.os _ _ Hallowed) as (_ & _ & _ & -> & _).
  destruct (calls_allowed Example_src_pruned.os _ _ Hallowed) as (_ & _ & _ & -> & _).
  change (absPath_of Example_src_pruned.os Example_src.accessor path)
    with (absPath_of Example_src.os Example_src.accessor path).
  rewrite Example_src_absPath_of. unfold outcome_of. cbn [snd].
  cbn [nix_readDirectory Example_src_pruned.os].
  destruct (decide (abs ("src" :: path) = "/src")) as [Hsrc|Hsrc].
  - destruct path as [|c rest]; [|by vm_compute in Hsrc].
    change (same_kept_listing Example_src_pruned.reject_link []
              (Ok [("link", Some tSymlink); ("run.sh", Some tRegular)])
              (Ok [("run.sh", Some tRegular)])).
    intros n Hkept. cbn [fmap list_fmap fst]. rewrite !elem_of_cons.
    assert (n ≠ "link") as Hn.
    { intros ->. vm_compute in Hkept. discriminate. }
    tauto.
  - unfold fmap, result_fmap, result_map.
    destruct (nix_readDirectory Example_src.os (abs ("src" :: path)));
      simpl; [by intros entry _ | done].
Qed.

